(** * adafruit_gfx: a shallow embedding of the GFX drawing class

    The Python class [GFX] turns geometric primitives into calls of three
    operations of a drawing context: [self._pixel], [self.hline] and
    [self.vline].  Python integers are unbounded, so coordinates are [Z];
    [//] is floor division ([Z.div]) and raises [ZeroDivisionError] on a
    zero divisor; [*args, **kwargs] is an opaque value of type [Extra]
    that the code never inspects.

    A primitive is a computation in a small monad that records the calls it
    issues, may raise a Python exception, and runs its [while] loops on
    fuel. *)

From Stdlib Require Import String ZArith List Lia Bool FinFun.
Import ListNotations.
Open Scope Z_scope.

(** ** Python exceptions and the call-recording monad *)

Inductive exn : Type :=
| AttributeError (name : string)
| TypeError (callee : string)
| ZeroDivisionError.

Module Run.

(** The result of running a piece of code that issues calls of type [E]:
    it returned [a] after issuing the calls [tr], it raised [ex] after
    issuing [tr], or a [while] loop used up the fuel of the model. *)
Inductive outcome (E A : Type) : Type :=
| Done (a : A) (tr : list E)
| Raise (ex : exn) (tr : list E)
| OutOfFuel.

Arguments Done {E A} a tr.
Arguments Raise {E A} ex tr.
Arguments OutOfFuel {E A}.

Definition ret {E A} (a : A) : outcome E A := Done a [].

Definition bind {E A B} (m : outcome E A) (k : A -> outcome E B)
  : outcome E B :=
  match m with
  | Done a tr =>
      match k a with
      | Done b tr' => Done b (tr ++ tr')
      | Raise ex tr' => Raise ex (tr ++ tr')
      | OutOfFuel => OutOfFuel
      end
  | Raise ex tr => Raise ex tr
  | OutOfFuel => OutOfFuel
  end.

Definition emit {E} (c : E) : outcome E unit := Done tt [c].

Definition throw {E A} (ex : exn) : outcome E A := Raise ex [].

(** [for v in xs: body], the loop state threaded through. *)
Fixpoint for_each {E S} (xs : list Z) (body : Z -> S -> outcome E S) (s : S)
  : outcome E S :=
  match xs with
  | [] => ret s
  | v :: xs' => bind (body v s) (for_each xs' body)
  end.

(** [while cond: body]; one unit of fuel per iteration. *)
Fixpoint while_ {E S} (fuel : nat) (cond : S -> bool)
  (body : S -> outcome E S) (s : S) : outcome E S :=
  if cond s then
    match fuel with
    | O => OutOfFuel
    | Datatypes.S n => bind (body s) (while_ n cond body)
    end
  else ret s.

End Run.
Import Run.

Notation "x <- m ;; k" := (bind m (fun x => k))
  (at level 61, m at next level, right associativity).
Notation "m ;; k" := (bind m (fun _ => k))
  (at level 61, right associativity).

(** ** Python built-ins used by the module *)

(** [range(lo, hi)]: empty when [hi <= lo]. *)
Definition range (lo hi : Z) : list Z :=
  map (fun i => lo + Z.of_nat i) (seq 0 (Z.to_nat (hi - lo))).

(** [a // b] on integers. *)
Definition floordiv {E} (a b : Z) : outcome E Z :=
  if b =? 0 then throw ZeroDivisionError else ret (a / b).

(** ** The drawing context *)

Section GFX.
(** [*args, **kwargs] of one primitive call. *)
Variable Extra : Type.
(** The callables a display driver passes to the constructor. *)
Variable Callable : Type.

(** A call on one of the three operations of the context. *)
Inductive call : Type :=
| Pixel (x y : Z) (e : Extra)          (* self._pixel(x, y, *args, **kwargs) *)
| Hline (x y w : Z) (e : Extra)        (* self.hline(x, y, w, *args, **kwargs) *)
| Vline (x y h : Z) (e : Extra).       (* self.vline(x, y, h, *args, **kwargs) *)

Definition call_extra (c : call) : Extra :=
  match c with Pixel _ _ e | Hline _ _ _ e | Vline _ _ _ e => e end.

Definition M := outcome call.

(** What [self.hline] / [self.vline] is bound to: the callable given to
    the constructor, or the bound method [self._slow_hline] /
    [self._slow_vline]. *)
Inductive span_op : Type :=
| Supplied (c : Callable)
| Fallback.

(** The instance: field [self_width] is the attribute [self.width], and
    so on. *)
Record GFX : Type := mkGFX {
  self_width : Z;
  self_height : Z;
  self_pixel : Callable;
  self_hline : span_op;
  self_vline : span_op;
  self_full_rect : Callable
}.

(** Names [getattr(self, name)] finds while [__init__] runs its last
    statement: the instance attributes assigned so far, then the
    attributes of the class. *)
Definition instance_attributes : list string :=
  ["width"; "height"; "_pixel"; "hline"; "vline"]%string.

Definition class_attributes : list string :=
  ["__init__"; "_slow_hline"; "_slow_vline"; "rect"; "_fill_rect"; "line";
   "circle"; "fill_circle"; "triangle"; "fill_triangle"]%string.

Definition has_attribute (name : string) : bool :=
  existsb (String.eqb name) (instance_attributes ++ class_attributes).

(** [self.<name>]: the attribute lookup. *)
Definition getattr_self (name : string) : outcome call string :=
  if has_attribute name then ret name else throw (AttributeError name).

(** [<attribute>()], a call without arguments.  Every method of the class
    takes positional arguments besides [self], and [width] and [height]
    are integers, so such a call raises [TypeError]. *)
Definition call_without_arguments (attr : string) : outcome call Callable :=
  throw (TypeError attr).

Definition __init__ (width height : Z) (pixel : Callable)
  (hline vline full_rect : option Callable) : outcome call GFX :=
  let hl := match hline with None => Fallback | Some c => Supplied c end in
  let vl := match vline with None => Fallback | Some c => Supplied c end in
  fr <- match full_rect with
        | None => f <- getattr_self "_full_rect" ;; call_without_arguments f
        | Some c => ret c
        end ;;
  ret (mkGFX width height pixel hl vl fr).

(** *** Calls on the operations of the context *)

Definition pixel (x y : Z) (e : Extra) : M unit := emit (Pixel x y e).
Definition hline (x y w : Z) (e : Extra) : M unit := emit (Hline x y w e).
Definition vline (x y h : Z) (e : Extra) : M unit := emit (Vline x y h e).

(** *** The span fallbacks *)

Definition _slow_hline (self : GFX) (x0 y0 width : Z) (e : Extra) : M unit :=
  if (y0 <? 0) || (y0 >? self_height self) || (x0 <? - width)
     || (x0 >? self_width self)
  then ret tt
  else
    for_each (range 0 width) (fun i _ => pixel (x0 + i) y0 e) tt.

Definition _slow_vline (self : GFX) (x0 y0 height : Z) (e : Extra) : M unit :=
  if (y0 <? - height) || (y0 >? self_height self) || (x0 <? 0)
     || (x0 >? self_width self)
  then ret tt
  else
    for_each (range 0 height) (fun i _ => pixel x0 (y0 + i) e) tt.

(** *** Rectangles *)

Definition rect (self : GFX) (x0 y0 width height : Z) (e : Extra) : M unit :=
  if (y0 <? - height) || (y0 >? self_height self) || (x0 <? - width)
     || (x0 >? self_width self)
  then ret tt
  else
    hline x0 y0 width e ;;
    hline x0 (y0 + height - 1) width e ;;
    vline x0 y0 height e ;;
    vline (x0 + width - 1) y0 height e.

Definition _fill_rect (self : GFX) (x0 y0 width height : Z) (e : Extra)
  : M unit :=
  if (y0 <? - height) || (y0 >? self_height self) || (x0 <? - width)
     || (x0 >? self_width self)
  then ret tt
  else
    for_each (range x0 (x0 + width)) (fun i _ => vline i y0 height e) tt.

(** *** Lines *)

(** The variables the loop of [line] updates. *)
Record line_vars : Type := mk_line_vars { l_x0 : Z; l_y0 : Z; l_err : Z }.

Definition line_body (steep : bool) (dx dy ystep : Z) (e : Extra)
  (s : line_vars) : M line_vars :=
  (if steep then pixel (l_y0 s) (l_x0 s) e
   else pixel (l_x0 s) (l_y0 s) e) ;;
  let err := l_err s - dy in
  let '(y0, err) :=
    if err <? 0 then (l_y0 s + ystep, err + dx) else (l_y0 s, err) in
  ret (mk_line_vars (l_x0 s + 1) y0 err).

Definition line (fuel : nat) (x0 y0 x1 y1 : Z) (e : Extra) : M unit :=
  let steep := Z.abs (y1 - y0) >? Z.abs (x1 - x0) in
  let '(x0, y0, x1, y1) :=
    if steep then (y0, x0, y1, x1) else (x0, y0, x1, y1) in
  let '(x0, y0, x1, y1) :=
    if x0 >? x1 then (x1, y1, x0, y0) else (x0, y0, x1, y1) in
  let dx := x1 - x0 in
  let dy := Z.abs (y1 - y0) in
  err <- floordiv dx 2 ;;
  let ystep := if y0 <? y1 then 1 else -1 in
  while_ fuel (fun s => l_x0 s <=? x1) (line_body steep dx dy ystep e)
    (mk_line_vars x0 y0 err) ;;
  ret tt.

(** *** Circles *)

(** The variables of the midpoint loop. *)
Record circle_vars : Type := mk_circle_vars {
  c_f : Z; c_ddF_x : Z; c_ddF_y : Z; c_x : Z; c_y : Z
}.

(** The arithmetic of one iteration, the same text in [circle] and in
    [fill_circle]. *)
Definition midpoint_step (s : circle_vars) : circle_vars :=
  let '(y, ddF_y, f) :=
    if c_f s >=? 0
    then (c_y s - 1, c_ddF_y s + 2, c_f s + (c_ddF_y s + 2))
    else (c_y s, c_ddF_y s, c_f s) in
  let x := c_x s + 1 in
  let ddF_x := c_ddF_x s + 2 in
  let f := f + ddF_x in
  mk_circle_vars f ddF_x ddF_y x y.

Definition circle_body (x0 y0 : Z) (e : Extra) (s : circle_vars)
  : M circle_vars :=
  let s := midpoint_step s in
  let x := c_x s in
  let y := c_y s in
  pixel (x0 + x) (y0 + y) e ;;
  pixel (x0 - x) (y0 + y) e ;;
  pixel (x0 + x) (y0 - y) e ;;
  pixel (x0 - x) (y0 - y) e ;;
  pixel (x0 + y) (y0 + x) e ;;
  pixel (x0 - y) (y0 + x) e ;;
  pixel (x0 + y) (y0 - x) e ;;
  pixel (x0 - y) (y0 - x) e ;;
  ret s.

Definition circle (fuel : nat) (x0 y0 radius : Z) (e : Extra) : M unit :=
  let f := 1 - radius in
  let ddF_x := 1 in
  let ddF_y := -2 * radius in
  let x := 0 in
  let y := radius in
  pixel x0 (y0 + radius) e ;;
  pixel x0 (y0 - radius) e ;;
  pixel (x0 + radius) y0 e ;;
  pixel (x0 - radius) y0 e ;;
  while_ fuel (fun s => c_x s <? c_y s) (circle_body x0 y0 e)
    (mk_circle_vars f ddF_x ddF_y x y) ;;
  ret tt.

Definition fill_circle_body (x0 y0 : Z) (e : Extra) (s : circle_vars)
  : M circle_vars :=
  let s := midpoint_step s in
  let x := c_x s in
  let y := c_y s in
  vline (x0 + x) (y0 - y) (2 * y + 1) e ;;
  vline (x0 + y) (y0 - x) (2 * x + 1) e ;;
  vline (x0 - x) (y0 - y) (2 * y + 1) e ;;
  vline (x0 - y) (y0 - x) (2 * x + 1) e ;;
  ret s.

Definition fill_circle (fuel : nat) (x0 y0 radius : Z) (e : Extra) : M unit :=
  vline x0 (y0 - radius) (2 * radius + 1) e ;;
  let f := 1 - radius in
  let ddF_x := 1 in
  let ddF_y := -2 * radius in
  let x := 0 in
  let y := radius in
  while_ fuel (fun s => c_x s <? c_y s) (fill_circle_body x0 y0 e)
    (mk_circle_vars f ddF_x ddF_y x y) ;;
  ret tt.

(** *** Triangles *)

Definition triangle (fuel : nat) (x0 y0 x1 y1 x2 y2 : Z) (e : Extra)
  : M unit :=
  line fuel x0 y0 x1 y1 e ;;
  line fuel x1 y1 x2 y2 e ;;
  line fuel x2 y2 x0 y0 e.

(** The variables the two loops of [fill_triangle] update.  [t_y] is the
    Python variable [y]: the [for] statement assigns it at the start of
    each iteration and leaves it at the last value it took (or at its
    earlier value [0] when the range is empty). *)
Record tri_vars : Type := mk_tri_vars {
  t_a : Z; t_b : Z; t_y : Z; t_sa : Z; t_sb : Z
}.

(** One scanline: the two edge intersections from the accumulators, kept
    in ascending order, and the span between them.  [xa] is the base of
    the first edge ([x0] in the first loop, [x1] in the second). *)
Definition scanline (xa x0 dxa dya dx02 dy02 y : Z) (e : Extra)
  (s : tri_vars) : M (Z * Z * Z * Z) :=
  qa <- floordiv (t_sa s) dya ;;
  let a := xa + qa in
  qb <- floordiv (t_sb s) dy02 ;;
  let b := x0 + qb in
  let sa := t_sa s + dxa in
  let sb := t_sb s + dx02 in
  let '(a, b) := if a >? b then (b, a) else (a, b) in
  hline a y (b - a + 1) e ;;
  ret (a, b, sa, sb).

(** [fill_triangle] after its three conditional swaps, on the swapped
    variables: the flat case, then the two scanline loops. *)
Definition fill_triangle_scan (fuel : nat) (x0 y0 x1 y1 x2 y2 : Z)
  (e : Extra) : M unit :=
  let a := 0 in
  let b := 0 in
  let y := 0 in
  if y0 =? y2 then
    let a := x0 in
    let b := x0 in
    let '(a, b) :=
      if x1 <? a then (x1, b) else if x1 >? b then (a, x1) else (a, b) in
    let '(a, b) :=
      if x2 <? a then (x2, b) else if x2 >? b then (a, x2) else (a, b) in
    hline a y0 (b - a + 1) e
  else
    let dx01 := x1 - x0 in
    let dy01 := y1 - y0 in
    let dx02 := x2 - x0 in
    let dy02 := y2 - y0 in
    let dx12 := x2 - x1 in
    let dy12 := y2 - y1 in
    let dy01 := if dy01 =? 0 then 1 else dy01 in
    let dy02 := if dy02 =? 0 then 1 else dy02 in
    let dy12 := if dy12 =? 0 then 1 else dy12 in
    let sa := 0 in
    let sb := 0 in
    let last := if y1 =? y2 then y1 else y1 - 1 in
    s <- for_each (range y0 (last + 1))
           (fun y s =>
              r <- scanline x0 x0 dx01 dy01 dx02 dy02 y e s ;;
              let '(a, b, sa, sb) := r in
              ret (mk_tri_vars a b y sa sb))
           (mk_tri_vars a b y sa sb) ;;
    let sa := dx12 * (t_y s - y1) in
    let sb := dx02 * (t_y s - y0) in
    while_ fuel (fun s => t_y s <=? y2)
      (fun s =>
         r <- scanline x1 x0 dx12 dy12 dx02 dy02 (t_y s) e s ;;
         let '(a, b, sa, sb) := r in
         ret (mk_tri_vars a b (t_y s + 1) sa sb))
      (mk_tri_vars (t_a s) (t_b s) (t_y s) sa sb) ;;
    ret tt.

Definition fill_triangle (fuel : nat) (x0 y0 x1 y1 x2 y2 : Z) (e : Extra)
  : M unit :=
  let '(x0, y0, x1, y1) :=
    if y0 >? y1 then (x1, y1, x0, y0) else (x0, y0, x1, y1) in
  let '(x1, y1, x2, y2) :=
    if y1 >? y2 then (x2, y2, x1, y1) else (x1, y1, x2, y2) in
  let '(x0, y0, x1, y1) :=
    if y0 >? y1 then (x1, y1, x0, y0) else (x0, y0, x1, y1) in
  fill_triangle_scan fuel x0 y0 x1 y1 x2 y2 e.

(** *** What a call on the context reaches

    A call of [self._pixel] reaches the driver's pixel callable.  A call
    of [self.hline] or [self.vline] reaches the driver's callable when
    one was supplied, and otherwise runs the fallback, which calls
    [self._pixel]. *)

Inductive backend_call : Type :=
| Invoke (c : Callable) (args : list Z) (e : Extra).

Definition backend_extra (b : backend_call) : Extra :=
  match b with Invoke _ _ e => e end.

Definition pixel_calls (self : GFX) (m : M unit) : list backend_call :=
  match m with
  | Done _ tr | Raise _ tr =>
      flat_map (fun c =>
                  match c with
                  | Pixel x y e => [Invoke (self_pixel self) [x; y] e]
                  | _ => []
                  end) tr
  | OutOfFuel => []
  end.

Definition dispatch (self : GFX) (c : call) : list backend_call :=
  match c with
  | Pixel x y e => [Invoke (self_pixel self) [x; y] e]
  | Hline x y w e =>
      match self_hline self with
      | Supplied f => [Invoke f [x; y; w] e]
      | Fallback => pixel_calls self (_slow_hline self x y w e)
      end
  | Vline x y h e =>
      match self_vline self with
      | Supplied f => [Invoke f [x; y; h] e]
      | Fallback => pixel_calls self (_slow_vline self x y h e)
      end
  end.

Definition backend_trace (self : GFX) (tr : list call) : list backend_call :=
  flat_map (dispatch self) tr.

(** *** Vocabulary of the statements *)

(** The coordinates of the pixel calls of a trace, in order. *)
Definition pixels (tr : list call) : list (Z * Z) :=
  flat_map (fun c => match c with Pixel x y _ => [(x, y)] | _ => [] end) tr.

Definition is_pixel (c : call) : Prop :=
  match c with Pixel _ _ _ => True | _ => False end.

(** The rows of the horizontal-span calls of a trace, in order. *)
Definition hline_rows (tr : list call) : list Z :=
  flat_map (fun c => match c with Hline _ y _ _ => [y] | _ => [] end) tr.

(** The cells a vertical-span call asks for: [h] consecutive cells going
    down from [(x, y)], which are the cells [_slow_vline] visits. *)
Definition vspan_cells (c : call) : list (Z * Z) :=
  match c with
  | Vline x y h _ => map (fun j => (x, y + j)) (range 0 h)
  | _ => []
  end.

(** Each element is the one before it plus one. *)
Fixpoint advances_by_one (l : list Z) : Prop :=
  match l with
  | a :: (b :: _) as t => b = a + 1 /\ advances_by_one t
  | _ => True
  end.

(** The eight symmetries of the square about the centre [(x0, y0)]:
    optionally exchange the two offsets (the diagonal), then optionally
    negate each of them (the vertical and the horizontal axis). *)
Definition reflect (x0 y0 : Z) (swap negx negy : bool) (p : Z * Z)
  : Z * Z :=
  let dx := fst p - x0 in
  let dy := snd p - y0 in
  let '(dx, dy) := if swap then (dy, dx) else (dx, dy) in
  (x0 + (if negx then - dx else dx), y0 + (if negy then - dy else dy)).

(** The offsets [circle] draws in one iteration of its loop, and the four
    points it draws before the loop, as coordinates. *)
Definition octants (x0 y0 x y : Z) : list (Z * Z) :=
  [(x0 + x, y0 + y); (x0 - x, y0 + y); (x0 + x, y0 - y); (x0 - x, y0 - y);
   (x0 + y, y0 + x); (x0 - y, y0 + x); (x0 + y, y0 - x); (x0 - y, y0 - x)].

Definition axis_points (x0 y0 radius : Z) : list (Z * Z) :=
  [(x0, y0 + radius); (x0, y0 - radius); (x0 + radius, y0);
   (x0 - radius, y0)].

(** The code returned, without an exception and within the fuel. *)
Definition returns (m : M unit) : Prop := exists tr, m = Done tt tr.

(** The code returned, and every call it issued on the context, and
    every call that reached the driver through them, carries [e]. *)
Definition forwards_extra (self : GFX) (e : Extra) (m : M unit) : Prop :=
  exists tr,
    m = Done tt tr
    /\ Forall (fun c => call_extra c = e) tr
    /\ Forall (fun b => backend_extra b = e) (backend_trace self tr).

(** Where [line] puts the point with major coordinate [a] and minor
    coordinate [b]: a steep line walks [y], so the two are exchanged when
    the pixel is drawn. *)
Definition place (steep : bool) (ab : Z * Z) : Z * Z :=
  if steep then (snd ab, fst ab) else ab.

(** A walk along the major axis: each point is one further on the major
    axis than the one before, and on the minor axis it stays or moves by
    [ystep]. *)
Fixpoint walk (ystep : Z) (l : list (Z * Z)) : Prop :=
  match l with
  | p :: (q :: _) as t =>
      fst q = fst p + 1
      /\ (snd q = snd p \/ snd q = snd p + ystep)
      /\ walk ystep t
  | _ => True
  end.

(** Each point is a neighbour of the one before it, sideways, up, down or
    diagonally (a king's move). *)
Fixpoint connected (l : list (Z * Z)) : Prop :=
  match l with
  | p :: (q :: _) as t =>
      Z.max (Z.abs (fst q - fst p)) (Z.abs (snd q - snd p)) = 1
      /\ connected t
  | _ => True
  end.

(** The point lies in the bounding box of the two corners. *)
Definition in_box (x0 y0 x1 y1 : Z) (p : Z * Z) : Prop :=
  Z.min x0 x1 <= fst p <= Z.max x0 x1
  /\ Z.min y0 y1 <= snd p <= Z.max y0 y1.


(** What the variables of the midpoint loop satisfy for a radius [r >= 0]:
    the two increments and the decision value follow [x] and [y], and
    [x*x + y*y] stays close to [r*r]. *)
Definition circle_inv (r : Z) (s : circle_vars) : Prop :=
  0 <= c_x s <= r /\ 0 <= c_y s <= r /\ c_x s <= c_y s + 1
  /\ c_ddF_x s = 2 * c_x s + 1 /\ c_ddF_y s = -2 * c_y s
  /\ c_f s = c_x s * c_x s + c_y s * c_y s - r * r + 2 * c_x s - c_y s + 1
  /\ - c_y s <= c_x s * c_x s + c_y s * c_y s - r * r
  /\ (c_x s * c_x s + c_y s * c_y s - r * r <= c_y s
      \/ (c_x s = c_y s + 1
          /\ c_x s * c_x s + c_y s * c_y s - r * r <= c_y s + 1
          /\ c_y s + 1 <= r)).

(** The pixel is within [r] of the centre on both axes, and the square of
    its distance from the centre differs from [r*r] by at most [r]. *)
Definition near_circle (x0 y0 r : Z) (p : Z * Z) : Prop :=
  Z.abs (fst p - x0) <= r /\ Z.abs (snd p - y0) <= r
  /\ Z.abs ((fst p - x0) * (fst p - x0) + (snd p - y0) * (snd p - y0) - r * r)
     <= r.

(** The cells a span call asks for, and the cell of a pixel call. *)
Definition call_cells (c : call) : list (Z * Z) :=
  match c with
  | Pixel x y _ => [(x, y)]
  | Hline x y w _ => map (fun i => (x + i, y)) (range 0 w)
  | Vline x y h _ => map (fun j => (x, y + j)) (range 0 h)
  end.

(** A vertical span, centred on row [y0], whose two end cells are among
    the points [pts]. *)
Definition span_on_outline (y0 : Z) (pts : list (Z * Z)) (c : call) : Prop :=
  match c with
  | Vline x y h _ =>
      In (x, y) pts /\ In (x, y + h - 1) pts /\ 2 * y + h - 1 = 2 * y0
  | _ => False
  end.

(** A horizontal span of at least one cell. *)
Definition proper_hspan (c : call) : Prop :=
  match c with Hline _ _ w _ => 1 <= w | _ => False end.


(** The cell is inside the disc of radius [r] about [(x0, y0)], up to the
    tolerance of the outline. *)
Definition in_disc (x0 y0 r : Z) (p : Z * Z) : Prop :=
  (fst p - x0) * (fst p - x0) + (snd p - y0) * (snd p - y0) <= r * r + r.


(** A call of the driver's pixel callable with two coordinates. *)
Definition is_pixel_invoke (self : GFX) (b : backend_call) : Prop :=
  exists x y e, b = Invoke (self_pixel self) [x; y] e.


(** The rejection tests, as the source writes them. *)
Definition hspan_rejected (self : GFX) (x y length : Z) : Prop :=
  y < 0 \/ y > self_height self \/ x < - length \/ x > self_width self.

Definition vspan_rejected (self : GFX) (x y length : Z) : Prop :=
  y < - length \/ y > self_height self \/ x < 0 \/ x > self_width self.

Definition rect_rejected (self : GFX) (x0 y0 width height : Z) : Prop :=
  y0 < - height \/ y0 > self_height self \/ x0 < - width
  \/ x0 > self_width self.

(** ** Properties *)

(** *** [range] *)

Lemma range_nil (lo hi : Z) : hi <= lo -> range lo hi = [].
Proof.
  intros H. unfold range.
  replace (Z.to_nat (hi - lo)) with 0%nat by lia. reflexivity.
Qed.

Lemma range_cons (lo hi : Z) :
  lo < hi -> range lo hi = lo :: range (lo + 1) hi.
Proof.
  intros H. unfold range.
  replace (Z.to_nat (hi - lo)) with (S (Z.to_nat (hi - (lo + 1)))) by lia.
  cbn [seq map]. f_equal; [lia|].
  rewrite <- seq_shift, map_map.
  apply map_ext. intros i. lia.
Qed.

Lemma length_range (lo hi : Z) :
  length (range lo hi) = Z.to_nat (hi - lo).
Proof. unfold range. now rewrite length_map, length_seq. Qed.

Lemma in_range (lo hi v : Z) : In v (range lo hi) <-> lo <= v < hi.
Proof.
  unfold range. rewrite in_map_iff. split.
  - intros (i & <- & Hi). apply in_seq in Hi. lia.
  - intros Hv. exists (Z.to_nat (v - lo)). split; [lia|].
    apply in_seq. lia.
Qed.

Lemma NoDup_range (lo hi : Z) : NoDup (range lo hi).
Proof.
  unfold range. apply Injective_map_NoDup.
  - intros i j Hij. lia.
  - apply seq_NoDup.
Qed.

Lemma advances_by_one_range (lo hi : Z) : advances_by_one (range lo hi).
Proof.
  remember (Z.to_nat (hi - lo)) as n eqn:Hn.
  revert lo Hn. induction n as [|n IH]; intros lo Hn.
  - rewrite range_nil by lia. exact I.
  - rewrite range_cons by lia.
    specialize (IH (lo + 1) ltac:(lia)).
    destruct (Z.le_gt_cases hi (lo + 1)) as [Hle|Hgt].
    + rewrite range_nil by lia. exact I.
    + rewrite range_cons in IH |- * by lia. split; [reflexivity | exact IH].
Qed.

(** *** The monad *)

Lemma bind_done_inv {E A B} (m : outcome E A) (k : A -> outcome E B) b tr :
  bind m k = Done b tr ->
  exists a t1 t2, m = Done a t1 /\ k a = Done b t2 /\ tr = t1 ++ t2.
Proof.
  destruct m as [a t1| |]; cbn; try discriminate.
  destruct (k a) as [b' t2| |] eqn:Hk; try discriminate.
  intros [= <- <-]. now exists a, t1, t2.
Qed.

Lemma for_each_emit {E} (f : Z -> E) (xs : list Z) :
  for_each xs (fun i _ => emit (f i)) tt = Done tt (map f xs).
Proof.
  induction xs as [|v xs IH]; cbn; [reflexivity|].
  now rewrite IH.
Qed.

(** More fuel never changes the result of a loop that finished. *)
Lemma while_fuel_mono {E S} (cond : S -> bool) (body : S -> outcome E S) :
  forall n m s s' tr, (n <= m)%nat ->
    while_ n cond body s = Done s' tr ->
    while_ m cond body s = Done s' tr.
Proof.
  induction n as [|n IH]; intros m s s' tr Hle H.
  - cbn in H. destruct m; cbn; destruct (cond s); try discriminate; exact H.
  - destruct m as [|m]; [lia|]. cbn in H |- *.
    destruct (cond s); [|exact H].
    apply bind_done_inv in H as (a & t1 & t2 & Hb & Hw & ->).
    rewrite Hb. cbn. now rewrite (IH m a s' t2 ltac:(lia) Hw).
Qed.

Lemma while_unfold {E S} fuel (cond : S -> bool) (body : S -> outcome E S) s :
  while_ fuel cond body s =
  if cond s then
    match fuel with
    | O => OutOfFuel
    | Datatypes.S n => bind (body s) (while_ n cond body)
    end
  else ret s.
Proof. destruct fuel; reflexivity. Qed.

Lemma bind_done_done {E A B} (k : A -> outcome E B) a t1 b t2 :
  k a = Done b t2 -> bind (Done a t1) k = Done b (t1 ++ t2).
Proof. intros H. cbn. now rewrite H. Qed.

(** *** The rejection guards *)

Lemma guard_spec (a b c d f g h i : Z) :
  (a <? b) || (c >? d) || (f <? g) || (h >? i) = true
  <-> a < b \/ c > d \/ f < g \/ h > i.
Proof.
  destruct (Z.ltb_spec a b), (Z.gtb_spec c d), (Z.ltb_spec f g),
    (Z.gtb_spec h i); cbn; split; intros H';
    first [reflexivity | discriminate | lia].
Qed.

Lemma guard_spec' (a b c d f g h i : Z) :
  (a <? b) || (c >? d) || (f <? g) || (h >? i) = false
  <-> ~ (a < b \/ c > d \/ f < g \/ h > i).
Proof.
  rewrite <- guard_spec. now destruct (_ || _ || _ || _).
Qed.

Lemma slow_hline_rejected self x y n e :
  hspan_rejected self x y n -> _slow_hline self x y n e = Done tt [].
Proof.
  intros H. apply guard_spec in H. unfold _slow_hline. now rewrite H.
Qed.

Lemma slow_hline_accepted self x y n e :
  ~ hspan_rejected self x y n ->
  _slow_hline self x y n e
  = Done tt (map (fun i => Pixel (x + i) y e) (range 0 n)).
Proof.
  intros H. apply guard_spec' in H. unfold _slow_hline. rewrite H.
  apply (for_each_emit (fun i => Pixel (x + i) y e)).
Qed.

Lemma slow_vline_rejected self x y n e :
  vspan_rejected self x y n -> _slow_vline self x y n e = Done tt [].
Proof.
  intros H. apply guard_spec in H. unfold _slow_vline. now rewrite H.
Qed.

Lemma slow_vline_accepted self x y n e :
  ~ vspan_rejected self x y n ->
  _slow_vline self x y n e
  = Done tt (map (fun i => Pixel x (y + i) e) (range 0 n)).
Proof.
  intros H. apply guard_spec' in H. unfold _slow_vline. rewrite H.
  apply (for_each_emit (fun i => Pixel x (y + i) e)).
Qed.

Lemma map_range_nonempty {A} (f : Z -> A) (n : Z) :
  1 <= n -> map f (range 0 n) <> [].
Proof. intros H. rewrite range_cons by lia. discriminate. Qed.

(** C3 (amended).  When its rejection test holds the fallback horizontal
    span issues no call, and otherwise it calls the pixel operation at
    [(x+i, y)] once for each [i] from [0] to [length-1], in ascending
    order, which is no call at all when [length <= 0]; so for
    [length >= 1] it is a no-op exactly when [y < 0] or [y > height] or
    [x < -length] or [x > width].  The fallback vertical span does the
    same with the axes exchanged. *)
Theorem slow_span_fallbacks (self : GFX) (x y n : Z) (e : Extra) :
  ((hspan_rejected self x y n -> _slow_hline self x y n e = Done tt [])
   /\ (~ hspan_rejected self x y n ->
       _slow_hline self x y n e
       = Done tt (map (fun i => Pixel (x + i) y e) (range 0 n)))
   /\ (1 <= n ->
       (_slow_hline self x y n e = Done tt [] <-> hspan_rejected self x y n)))
  /\
  ((vspan_rejected self x y n -> _slow_vline self x y n e = Done tt [])
   /\ (~ vspan_rejected self x y n ->
       _slow_vline self x y n e
       = Done tt (map (fun i => Pixel x (y + i) e) (range 0 n)))
   /\ (1 <= n ->
       (_slow_vline self x y n e = Done tt [] <-> vspan_rejected self x y n))).
Proof.
  split; (split; [|split]).
  - apply slow_hline_rejected.
  - apply slow_hline_accepted.
  - intros Hn. split; [|apply slow_hline_rejected].
    intros Hrun.
    destruct (guard_spec y 0 y (self_height self) x (- n) x (self_width self))
      as [Hg _].
    destruct ((y <? 0) || (y >? self_height self) || (x <? - n)
              || (x >? self_width self)) eqn:G; [now apply Hg|].
    apply guard_spec' in G. rewrite (slow_hline_accepted self x y n e G) in Hrun.
    injection Hrun as Hrun. now apply map_range_nonempty in Hrun.
  - apply slow_vline_rejected.
  - apply slow_vline_accepted.
  - intros Hn. split; [|apply slow_vline_rejected].
    intros Hrun.
    destruct (guard_spec y (- n) y (self_height self) x 0 x (self_width self))
      as [Hg _].
    destruct ((y <? - n) || (y >? self_height self) || (x <? 0)
              || (x >? self_width self)) eqn:G; [now apply Hg|].
    apply guard_spec' in G. rewrite (slow_vline_accepted self x y n e G) in Hrun.
    injection Hrun as Hrun. now apply map_range_nonempty in Hrun.
Qed.

(** *** Filled rectangles *)

Lemma fill_rect_rejected self x0 y0 width height e :
  rect_rejected self x0 y0 width height ->
  _fill_rect self x0 y0 width height e = Done tt [].
Proof.
  intros H. apply guard_spec in H. unfold _fill_rect. now rewrite H.
Qed.

Lemma fill_rect_accepted self x0 y0 width height e :
  ~ rect_rejected self x0 y0 width height ->
  _fill_rect self x0 y0 width height e
  = Done tt (map (fun i => Vline i y0 height e) (range x0 (x0 + width))).
Proof.
  intros H. apply guard_spec' in H. unfold _fill_rect. rewrite H.
  apply (for_each_emit (fun i => Vline i y0 height e)).
Qed.

Lemma cells_of_columns (y0 height : Z) (e : Extra) (cols : list Z) :
  flat_map vspan_cells (map (fun i => Vline i y0 height e) cols)
  = flat_map (fun i => map (fun j => (i, y0 + j)) (range 0 height)) cols.
Proof.
  induction cols as [|c cols IH]; cbn; [reflexivity|]. now rewrite IH.
Qed.

Lemma in_column_cells (y0 height : Z) (cols : list Z) (cx cy : Z) :
  In (cx, cy)
    (flat_map (fun i => map (fun j => (i, y0 + j)) (range 0 height)) cols)
  <-> In cx cols /\ y0 <= cy < y0 + height.
Proof.
  rewrite in_flat_map. split.
  - intros (i & Hi & Hin). apply in_map_iff in Hin as (j & [= <- <-] & Hj).
    apply in_range in Hj. split; [exact Hi | lia].
  - intros [Hc Hy]. exists cx. split; [exact Hc|].
    apply in_map_iff. exists (cy - y0). split; [f_equal; lia|].
    apply in_range. lia.
Qed.

Lemma NoDup_column_cells (y0 height : Z) (cols : list Z) :
  NoDup cols ->
  NoDup (flat_map (fun i => map (fun j => (i, y0 + j)) (range 0 height)) cols).
Proof.
  induction 1 as [|c cols Hc Hnd IH]; cbn; [constructor|].
  apply NoDup_app.
  - apply Injective_map_NoDup; [|apply NoDup_range].
    intros i j [= Hij]. lia.
  - exact IH.
  - intros [cx cy] Hin Hin'.
    apply in_map_iff in Hin as (j & [= <- <-] & _).
    apply in_column_cells in Hin' as [Hin' _]. contradiction.
Qed.

(** C6.  When its bounds test ([y0 < -height] or [y0 > self.height] or
    [x0 < -width] or [x0 > self.width]) holds, [_fill_rect] issues no
    call.  Otherwise it issues one vertical-span call per column from
    [x0] to [x0+width-1], each of length [height]: [width] calls, whose
    cells are the cells of the rectangle, each exactly once,
    [width*height] of them. *)
Theorem fill_rect_columns (self : GFX) (x0 y0 width height : Z) (e : Extra) :
  (rect_rejected self x0 y0 width height ->
   _fill_rect self x0 y0 width height e = Done tt []
   /\ backend_trace self [] = [])
  /\
  (~ rect_rejected self x0 y0 width height ->
   exists tr,
     _fill_rect self x0 y0 width height e = Done tt tr
     /\ tr = map (fun i => Vline i y0 height e) (range x0 (x0 + width))
     /\ length tr = Z.to_nat width
     /\ NoDup (flat_map vspan_cells tr)
     /\ (forall cx cy,
           In (cx, cy) (flat_map vspan_cells tr)
           <-> x0 <= cx < x0 + width /\ y0 <= cy < y0 + height)
     /\ length (flat_map vspan_cells tr)
        = (Z.to_nat width * Z.to_nat height)%nat).
Proof.
  split.
  - intros H. split; [now apply fill_rect_rejected | reflexivity].
  - intros H. eexists. split; [now apply fill_rect_accepted|].
    split; [reflexivity|]. rewrite cells_of_columns.
    split; [|split; [|split]].
    + rewrite length_map, length_range. f_equal. lia.
    + apply NoDup_column_cells, NoDup_range.
    + intros cx cy. rewrite in_column_cells, in_range. reflexivity.
    + rewrite (@flat_map_constant_length _ _ (Z.to_nat height)).
      * rewrite length_range. f_equal. f_equal. lia.
      * intros i _. rewrite length_map, length_range. f_equal. lia.
Qed.

(** *** The constructor *)

Lemma init_with_full_rect width height pixel hline vline f :
  __init__ width height pixel hline vline (Some f)
  = Done (mkGFX width height pixel
            (match hline with None => Fallback | Some c => Supplied c end)
            (match vline with None => Fallback | Some c => Supplied c end)
            f) [].
Proof. reflexivity. Qed.

(** C2 (what the code does).  Whatever the other arguments, a constructor
    call that omits [full_rect] evaluates [self._full_rect()], and the
    class has no attribute of that name: the call raises
    [AttributeError] and no context is constructed. *)
Theorem init_without_full_rect_raises (width height : Z) (pixel : Callable)
  (hline vline : option Callable) :
  __init__ width height pixel hline vline None
  = Raise (AttributeError "_full_rect") [].
Proof. reflexivity. Qed.

(** *** Circles of negative radius *)

(** C10.  For a radius [r < 0], [circle] issues exactly the four pixel
    calls [(x0, y0+r)], [(x0, y0-r)], [(x0+r, y0)], [(x0-r, y0)]: the
    midpoint loop starts with [x = 0], [y = r] and its guard [x < y] is
    false, so it runs no iteration, whatever the fuel. *)
Theorem circle_negative_radius (fuel : nat) (x0 y0 r : Z) (e : Extra) :
  r < 0 ->
  while_ fuel (fun s => c_x s <? c_y s) (circle_body x0 y0 e)
    (mk_circle_vars (1 - r) 1 (-2 * r) 0 r)
  = Done (mk_circle_vars (1 - r) 1 (-2 * r) 0 r) []
  /\ circle fuel x0 y0 r e
     = Done tt [Pixel x0 (y0 + r) e; Pixel x0 (y0 - r) e;
                Pixel (x0 + r) y0 e; Pixel (x0 - r) y0 e].
Proof.
  intros Hr.
  assert (Hloop :
    while_ fuel (fun s => c_x s <? c_y s) (circle_body x0 y0 e)
      (mk_circle_vars (1 - r) 1 (-2 * r) 0 r)
    = Done (mk_circle_vars (1 - r) 1 (-2 * r) 0 r) []).
  { rewrite while_unfold. cbn [c_x c_y].
    destruct (Z.ltb_spec 0 r); [lia | reflexivity]. }
  split; [exact Hloop|].
  unfold circle. rewrite Hloop. reflexivity.
Qed.

(** *** Lines *)

Lemma line_body_done steep dx dy ystep e s :
  exists y' err',
    line_body steep dx dy ystep e s
    = Done (mk_line_vars (l_x0 s + 1) y' err')
        [if steep then Pixel (l_y0 s) (l_x0 s) e
         else Pixel (l_x0 s) (l_y0 s) e].
Proof.
  unfold line_body.
  destruct steep, (l_err s - dy <? 0); cbn; eauto.
Qed.

(** The loop of [line] from [x] up to [x1]: it finishes on any fuel that
    covers its [x1 + 1 - x] iterations, each of which issues one pixel
    call whose major coordinate is the loop counter. *)
Lemma line_loop_run steep dx dy ystep e x1 :
  forall n fuel x y err,
    x1 + 1 - x = Z.of_nat n -> (n <= fuel)%nat ->
    exists s' tr,
      while_ fuel (fun s => l_x0 s <=? x1) (line_body steep dx dy ystep e)
        (mk_line_vars x y err) = Done s' tr
      /\ Forall is_pixel tr
      /\ Forall (fun c => call_extra c = e) tr
      /\ length tr = n
      /\ map (fun p : Z * Z => if steep then snd p else fst p) (pixels tr)
         = range x (x1 + 1).
Proof.
  induction n as [|n IH]; intros fuel x y err Hx Hfuel.
  - rewrite while_unfold. cbn [l_x0].
    destruct (Z.leb_spec x x1); [lia|].
    exists (mk_line_vars x y err), []. cbn.
    rewrite range_nil by lia. repeat split; constructor.
  - destruct fuel as [|fuel]; [lia|].
    rewrite while_unfold. cbn [l_x0].
    destruct (Z.leb_spec x x1); [|lia].
    destruct (line_body_done steep dx dy ystep e (mk_line_vars x y err))
      as (y' & err' & Hbody).
    cbn [l_x0 l_y0] in Hbody. rewrite Hbody.
    destruct (IH fuel (x + 1) y' err' ltac:(lia) ltac:(lia))
      as (s' & tr & Hrun & Hpix & Hext & Hlen & Hmaj).
    eexists s', _. split; [apply bind_done_done, Hrun|].
    rewrite (range_cons x (x1 + 1)) by lia.
    destruct steep; cbn;
      (split; [constructor; [exact I | exact Hpix]|]);
      (split; [constructor; [reflexivity | exact Hext]|]);
      (split; [now rewrite Hlen | f_equal; exact Hmaj]).
Qed.

(** The loop of [line] together with what surrounds it, once the
    endpoints are in walking order. *)
Lemma line_tail steep (x0 y0 x1 y1 : Z) (e : Extra) (fuel : nat) :
  x0 <= x1 -> (Z.to_nat (x1 + 1 - x0) <= fuel)%nat ->
  exists tr,
    (err <- floordiv (x1 - x0) 2 ;;
     while_ fuel (fun s => l_x0 s <=? x1)
       (line_body steep (x1 - x0) (Z.abs (y1 - y0))
          (if y0 <? y1 then 1 else -1) e)
       (mk_line_vars x0 y0 err) ;;
     ret tt) = Done tt tr
    /\ Forall is_pixel tr
    /\ Forall (fun c => call_extra c = e) tr
    /\ Z.of_nat (length tr) = x1 - x0 + 1
    /\ map (fun p : Z * Z => if steep then snd p else fst p) (pixels tr)
       = range x0 (x1 + 1).
Proof.
  intros Hle Hfuel.
  destruct (line_loop_run steep (x1 - x0) (Z.abs (y1 - y0))
              (if y0 <? y1 then 1 else -1) e x1
              (Z.to_nat (x1 + 1 - x0)) fuel x0 y0 ((x1 - x0) / 2)
              ltac:(lia) Hfuel)
    as (s' & tr & Hrun & Hpix & Hext & Hlen & Hmaj).
  exists tr. unfold floordiv. cbn [Z.eqb bind ret]. rewrite Hrun.
  cbn [bind ret app]. rewrite app_nil_r.
  repeat split; try assumption. lia.
Qed.

(** [line] on enough fuel: a fuel of [max(|x1-x0|, |y1-y0|) + 1] or more
    lets it return. *)
Lemma line_run (x0 y0 x1 y1 : Z) (e : Extra) (fuel : nat) :
  (Z.to_nat (Z.max (Z.abs (x1 - x0)) (Z.abs (y1 - y0)) + 1) <= fuel)%nat ->
  exists tr,
    line fuel x0 y0 x1 y1 e = Done tt tr
    /\ Forall is_pixel tr
    /\ Forall (fun c => call_extra c = e) tr
    /\ Z.of_nat (length tr)
       = Z.max (Z.abs (x1 - x0)) (Z.abs (y1 - y0)) + 1
    /\ advances_by_one
         (map (fun p : Z * Z =>
                 if Z.abs (y1 - y0) >? Z.abs (x1 - x0) then snd p else fst p)
            (pixels tr)).
Proof.
  intros Hfuel. unfold line.
  destruct (Z.gtb_spec (Z.abs (y1 - y0)) (Z.abs (x1 - x0))) as [Hs|Hs];
    cbv beta iota zeta.
  - destruct (Z.gtb_spec y0 y1) as [Hc|Hc]; cbv beta iota zeta.
    + destruct (line_tail true y1 x1 y0 x0 e fuel ltac:(lia) ltac:(lia))
        as (tr & Hrun & Hpix & Hext & Hlen & Hmaj).
      exists tr. rewrite Hmaj.
      repeat split; try assumption; [lia | apply advances_by_one_range].
    + destruct (line_tail true y0 x0 y1 x1 e fuel ltac:(lia) ltac:(lia))
        as (tr & Hrun & Hpix & Hext & Hlen & Hmaj).
      exists tr. rewrite Hmaj.
      repeat split; try assumption; [lia | apply advances_by_one_range].
  - destruct (Z.gtb_spec x0 x1) as [Hc|Hc]; cbv beta iota zeta.
    + destruct (line_tail false x1 y1 x0 y0 e fuel ltac:(lia) ltac:(lia))
        as (tr & Hrun & Hpix & Hext & Hlen & Hmaj).
      exists tr. rewrite Hmaj.
      repeat split; try assumption; [lia | apply advances_by_one_range].
    + destruct (line_tail false x0 y0 x1 y1 e fuel ltac:(lia) ltac:(lia))
        as (tr & Hrun & Hpix & Hext & Hlen & Hmaj).
      exists tr. rewrite Hmaj.
      repeat split; try assumption; [lia | apply advances_by_one_range].
Qed.

(** C4.  For all integer endpoints, [line] returns after exactly
    [max(|x1-x0|, |y1-y0|) + 1] calls, all of them pixel calls, and from
    each emitted pixel to the next the coordinate on the major axis ([y]
    when [|y1-y0| > |x1-x0|], else [x]) grows by exactly one. *)
Theorem line_pixel_count (x0 y0 x1 y1 : Z) (e : Extra) :
  exists fuel tr,
    line fuel x0 y0 x1 y1 e = Done tt tr
    /\ Forall is_pixel tr
    /\ Z.of_nat (length tr)
       = Z.max (Z.abs (x1 - x0)) (Z.abs (y1 - y0)) + 1
    /\ advances_by_one
         (map (fun p : Z * Z =>
                 if Z.abs (y1 - y0) >? Z.abs (x1 - x0) then snd p else fst p)
            (pixels tr)).
Proof.
  destruct (line_run x0 y0 x1 y1 e
              (Z.to_nat (Z.max (Z.abs (x1 - x0)) (Z.abs (y1 - y0)) + 1))
              (le_n _))
    as (tr & Hrun & Hpix & _ & Hlen & Hadv).
  eauto 6.
Qed.

(** Both directions of a line run the same computation: after the two
    swaps of [line] the endpoints are in the same order. *)
Lemma line_swap (fuel : nat) (x0 y0 x1 y1 : Z) (e : Extra) :
  line fuel x0 y0 x1 y1 e = line fuel x1 y1 x0 y0 e.
Proof.
  unfold line.
  replace (Z.abs (y0 - y1)) with (Z.abs (y1 - y0)) by lia.
  replace (Z.abs (x0 - x1)) with (Z.abs (x1 - x0)) by lia.
  destruct (Z.gtb_spec (Z.abs (y1 - y0)) (Z.abs (x1 - x0))) as [Hs|Hs];
    cbv beta iota zeta.
  - destruct (Z.gtb_spec y0 y1), (Z.gtb_spec y1 y0); cbv beta iota zeta;
      try reflexivity; lia.
  - destruct (Z.gtb_spec x0 x1), (Z.gtb_spec x1 x0); cbv beta iota zeta;
      try reflexivity; try lia.
    assert (x0 = x1) by lia. assert (y0 = y1) by lia. subst. reflexivity.
Qed.

(** C5.  For all integer endpoints, [line] called from [(x0,y0)] to
    [(x1,y1)] and called from [(x1,y1)] to [(x0,y0)] both return, issue
    pixel calls only, and emit the same set of pixel coordinates. *)
Theorem line_endpoint_swap (x0 y0 x1 y1 : Z) (e : Extra) :
  exists fuel tr tr',
    line fuel x0 y0 x1 y1 e = Done tt tr
    /\ line fuel x1 y1 x0 y0 e = Done tt tr'
    /\ Forall is_pixel tr /\ Forall is_pixel tr'
    /\ forall p, In p (pixels tr) <-> In p (pixels tr').
Proof.
  destruct (line_run x0 y0 x1 y1 e
              (Z.to_nat (Z.max (Z.abs (x1 - x0)) (Z.abs (y1 - y0)) + 1))
              (le_n _))
    as (tr & Hrun & Hpix & _).
  exists (Z.to_nat (Z.max (Z.abs (x1 - x0)) (Z.abs (y1 - y0)) + 1)), tr, tr.
  rewrite (line_swap _ x1 y1 x0 y0).
  split; [exact Hrun|]. split; [exact Hrun|].
  split; [exact Hpix|]. split; [exact Hpix|]. reflexivity.
Qed.

(** *** Circles *)

Lemma reflect_inverse x0 y0 swap negx negy q :
  reflect x0 y0 swap negx negy
    (reflect x0 y0 swap (if swap then negy else negx)
       (if swap then negx else negy) q) = q.
Proof.
  destruct q as [qx qy]. unfold reflect.
  destruct swap, negx, negy; cbn; f_equal; lia.
Qed.

Ltac find_point :=
  cbn;
  repeat match goal with
         | |- _ \/ _ => first [left; solve [f_equal; lia] | right]
         end.

Lemma octants_closed x0 y0 x y swap negx negy p :
  In p (octants x0 y0 x y) ->
  In (reflect x0 y0 swap negx negy p) (octants x0 y0 x y).
Proof.
  intros H. unfold octants in H. cbn [In] in H.
  unfold reflect.
  repeat match type of H with
         | _ \/ _ => destruct H as [H|H]
         end; try contradiction; subst p;
    destruct swap, negx, negy; find_point.
Qed.

Lemma axis_points_closed x0 y0 r swap negx negy p :
  In p (axis_points x0 y0 r) ->
  In (reflect x0 y0 swap negx negy p) (axis_points x0 y0 r).
Proof.
  intros H. unfold axis_points in H. cbn [In] in H.
  unfold reflect.
  repeat match type of H with
         | _ \/ _ => destruct H as [H|H]
         end; try contradiction; subst p;
    destruct swap, negx, negy; find_point.
Qed.

Lemma pixels_app tr tr' : pixels (tr ++ tr') = pixels tr ++ pixels tr'.
Proof. apply flat_map_app. Qed.

Lemma midpoint_step_xy s :
  c_x (midpoint_step s) = c_x s + 1
  /\ (c_y (midpoint_step s) = c_y s \/ c_y (midpoint_step s) = c_y s - 1).
Proof. unfold midpoint_step. destruct (c_f s >=? 0); cbn; lia. Qed.

Lemma circle_body_done x0 y0 e s :
  exists tr,
    circle_body x0 y0 e s = Done (midpoint_step s) tr
    /\ Forall is_pixel tr
    /\ Forall (fun c => call_extra c = e) tr
    /\ pixels tr
       = octants x0 y0 (c_x (midpoint_step s)) (c_y (midpoint_step s)).
Proof.
  eexists. split; [reflexivity|].
  repeat split; repeat constructor.
Qed.

(** The midpoint loop of [circle]: [y - x] shrinks in every iteration, so
    a fuel of [y - x] finishes it, and the points it draws are closed
    under the eight symmetries. *)
Lemma circle_loop_run x0 y0 e :
  forall n fuel s,
    c_y s - c_x s <= Z.of_nat n -> (n <= fuel)%nat ->
    exists s' tr,
      while_ fuel (fun s => c_x s <? c_y s) (circle_body x0 y0 e) s
      = Done s' tr
      /\ Forall is_pixel tr
      /\ Forall (fun c => call_extra c = e) tr
      /\ forall swap negx negy p,
           In p (pixels tr) ->
           In (reflect x0 y0 swap negx negy p) (pixels tr).
Proof.
  induction n as [|n IH]; intros fuel s Hm Hfuel; rewrite while_unfold;
    destruct (Z.ltb_spec (c_x s) (c_y s)) as [Hlt|Hge].
  - lia.
  - exists s, []. repeat split; try constructor. intros ? ? ? ? [].
  - destruct fuel as [|fuel]; [lia|].
    destruct (circle_body_done x0 y0 e s) as (t1 & Hbody & Hp1 & He1 & Hoct).
    destruct (midpoint_step_xy s) as [Hx Hy].
    destruct (IH fuel (midpoint_step s) ltac:(lia) ltac:(lia))
      as (s' & t2 & Hrun & Hp2 & He2 & Hsym).
    exists s', (t1 ++ t2). rewrite Hbody.
    split; [apply bind_done_done, Hrun|].
    split; [now apply Forall_app|]. split; [now apply Forall_app|].
    intros swap negx negy p. rewrite pixels_app, !in_app_iff, Hoct.
    intros [Hin|Hin]; [left; now apply octants_closed | right; now apply Hsym].
  - exists s, []. repeat split; try constructor. intros ? ? ? ? [].
Qed.

Lemma circle_run (x0 y0 r : Z) (e : Extra) (fuel : nat) :
  (Z.to_nat r <= fuel)%nat ->
  exists tr,
    circle fuel x0 y0 r e = Done tt tr
    /\ Forall is_pixel tr
    /\ Forall (fun c => call_extra c = e) tr
    /\ forall swap negx negy p,
         In p (pixels tr) ->
         In (reflect x0 y0 swap negx negy p) (pixels tr).
Proof.
  intros Hfuel.
  destruct (circle_loop_run x0 y0 e (Z.to_nat r) fuel
              (mk_circle_vars (1 - r) 1 (-2 * r) 0 r)
              ltac:(cbn; lia) Hfuel)
    as (s' & tr & Hrun & Hpix & Hext & Hsym).
  eexists. unfold circle. rewrite Hrun. split; [reflexivity|].
  cbn [app]. rewrite app_nil_r.
  split; [repeat constructor; exact Hpix|].
  split; [repeat constructor; exact Hext|].
  intros swap negx negy p.
  change (In p (axis_points x0 y0 r ++ pixels tr) ->
          In (reflect x0 y0 swap negx negy p)
            (axis_points x0 y0 r ++ pixels tr)).
  rewrite !in_app_iff.
  intros [Hin|Hin];
    [left; now apply axis_points_closed | right; now apply Hsym].
Qed.

(** C7.  For every centre and every radius (so for every radius
    [r >= 1]), [circle] returns after issuing pixel calls only, and the
    set of pixel coordinates it emits is invariant under each of the
    eight symmetries about the centre: the image of the set is the set. *)
Theorem circle_eightfold_symmetric (x0 y0 r : Z) (e : Extra) :
  exists fuel tr,
    circle fuel x0 y0 r e = Done tt tr
    /\ Forall is_pixel tr
    /\ forall swap negx negy q,
         In q (map (reflect x0 y0 swap negx negy) (pixels tr))
         <-> In q (pixels tr).
Proof.
  destruct (circle_run x0 y0 r e (Z.to_nat r) (le_n _))
    as (tr & Hrun & Hpix & _ & Hsym).
  exists (Z.to_nat r), tr. split; [exact Hrun|]. split; [exact Hpix|].
  intros swap negx negy q. rewrite in_map_iff. split.
  - intros (p & <- & Hp). now apply Hsym.
  - intros Hq.
    exists (reflect x0 y0 swap (if swap then negy else negx)
              (if swap then negx else negy) q).
    split; [apply reflect_inverse | now apply Hsym].
Qed.

Lemma fill_circle_loop_run x0 y0 e :
  forall n fuel s,
    c_y s - c_x s <= Z.of_nat n -> (n <= fuel)%nat ->
    exists s' tr,
      while_ fuel (fun s => c_x s <? c_y s) (fill_circle_body x0 y0 e) s
      = Done s' tr
      /\ Forall (fun c => call_extra c = e) tr.
Proof.
  induction n as [|n IH]; intros fuel s Hm Hfuel; rewrite while_unfold;
    destruct (Z.ltb_spec (c_x s) (c_y s)) as [Hlt|Hge].
  - lia.
  - exists s, []. split; constructor.
  - destruct fuel as [|fuel]; [lia|].
    destruct (midpoint_step_xy s) as [Hx Hy].
    destruct (IH fuel (midpoint_step s) ltac:(lia) ltac:(lia))
      as (s' & t2 & Hrun & He2).
    eexists s', _. split.
    + apply (@bind_done_done _ _ _ _ (midpoint_step s)), Hrun.
    + repeat constructor. exact He2.
  - exists s, []. split; constructor.
Qed.

Lemma fill_circle_run (x0 y0 r : Z) (e : Extra) (fuel : nat) :
  (Z.to_nat r <= fuel)%nat ->
  exists tr,
    fill_circle fuel x0 y0 r e = Done tt tr
    /\ Forall (fun c => call_extra c = e) tr.
Proof.
  intros Hfuel.
  destruct (fill_circle_loop_run x0 y0 e (Z.to_nat r) fuel
              (mk_circle_vars (1 - r) 1 (-2 * r) 0 r)
              ltac:(cbn; lia) Hfuel)
    as (s' & tr & Hrun & Hext).
  eexists. unfold fill_circle. cbv zeta. rewrite Hrun.
  split; [reflexivity|].
  cbn [app]. rewrite app_nil_r. constructor; [reflexivity | exact Hext].
Qed.

(** *** Triangles *)

Lemma triangle_run (x0 y0 x1 y1 x2 y2 : Z) (e : Extra) :
  exists fuel tr,
    triangle fuel x0 y0 x1 y1 x2 y2 e = Done tt tr
    /\ Forall is_pixel tr
    /\ Forall (fun c => call_extra c = e) tr.
Proof.
  assert (Hfuel : exists fuel,
    (Z.to_nat (Z.max (Z.abs (x1 - x0)) (Z.abs (y1 - y0)) + 1) <= fuel)%nat
    /\ (Z.to_nat (Z.max (Z.abs (x2 - x1)) (Z.abs (y2 - y1)) + 1) <= fuel)%nat
    /\ (Z.to_nat (Z.max (Z.abs (x0 - x2)) (Z.abs (y0 - y2)) + 1) <= fuel)%nat).
  { exists (Z.to_nat (Z.max (Z.abs (x1 - x0)) (Z.abs (y1 - y0)) + 1)
            + Z.to_nat (Z.max (Z.abs (x2 - x1)) (Z.abs (y2 - y1)) + 1)
            + Z.to_nat (Z.max (Z.abs (x0 - x2)) (Z.abs (y0 - y2)) + 1))%nat.
    repeat split.
    - rewrite <- Nat.add_assoc. apply Nat.le_add_r.
    - apply Nat.le_trans with (2 := Nat.le_add_r _ _). apply Nat.le_add_l.
    - apply Nat.le_add_l. }
  destruct Hfuel as (fuel & F1 & F2 & F3).
  destruct (line_run x0 y0 x1 y1 e fuel F1) as (t1 & H1 & P1 & E1 & _).
  destruct (line_run x1 y1 x2 y2 e fuel F2) as (t2 & H2 & P2 & E2 & _).
  destruct (line_run x2 y2 x0 y0 e fuel F3) as (t3 & H3 & P3 & E3 & _).
  exists fuel, (t1 ++ t2 ++ t3). unfold triangle. rewrite H1, H2, H3.
  split; [reflexivity|].
  split; (apply Forall_app; split; [assumption|]; apply Forall_app; now split).
Qed.

Lemma scanline_done xa x0 dxa dya dx02 dy02 y e s :
  dya <> 0 -> dy02 <> 0 ->
  exists a b,
    scanline xa x0 dxa dya dx02 dy02 y e s
    = Done (a, b, t_sa s + dxa, t_sb s + dx02) [Hline a y (b - a + 1) e].
Proof.
  intros Ha Hb. unfold scanline, floordiv.
  rewrite (proj2 (Z.eqb_neq _ _) Ha), (proj2 (Z.eqb_neq _ _) Hb).
  cbn [bind ret].
  destruct (xa + t_sa s / dya >? x0 + t_sb s / dy02); cbn; eauto.
Qed.

Lemma last_cons_default {A} (ys : list A) :
  forall y d, last (y :: ys) d = last ys y.
Proof.
  induction ys as [|z zs IH]; intros y d; [reflexivity|].
  change (last (y :: z :: zs) d) with (last (z :: zs) d).
  now rewrite !IH.
Qed.

Lemma last_range (lo hi d : Z) : lo < hi -> last (range lo hi) d = hi - 1.
Proof.
  remember (Z.to_nat (hi - lo - 1)) as n eqn:Hn.
  revert lo d Hn. induction n as [|n IH]; intros lo d Hn Hlt;
    rewrite range_cons, last_cons_default by lia.
  - rewrite range_nil by lia. cbn. lia.
  - apply IH; lia.
Qed.

Lemma hline_rows_app tr tr' :
  hline_rows (tr ++ tr') = hline_rows tr ++ hline_rows tr'.
Proof. apply flat_map_app. Qed.

(** The first loop of [fill_triangle]: one span per element of the range,
    and [y] is left at the last element. *)
Lemma phase1_run x0 dx01 dy01 dx02 dy02 e :
  dy01 <> 0 -> dy02 <> 0 ->
  forall ys s,
    exists s' tr,
      for_each ys
        (fun y s =>
           r <- scanline x0 x0 dx01 dy01 dx02 dy02 y e s ;;
           let '(a, b, sa, sb) := r in
           ret (mk_tri_vars a b y sa sb)) s = Done s' tr
      /\ Forall (fun c => call_extra c = e) tr
      /\ hline_rows tr = ys
      /\ t_y s' = last ys (t_y s).
Proof.
  intros Ha Hb. induction ys as [|y ys IH]; intros s.
  - exists s, []. repeat split; constructor.
  - destruct (scanline_done x0 x0 dx01 dy01 dx02 dy02 y e s Ha Hb) as (a & b & Hsc).
    destruct (IH (mk_tri_vars a b y (t_sa s + dx01) (t_sb s + dx02)))
      as (s' & tr & Hrun & Hext & Hrows & Hy).
    exists s', (Hline a y (b - a + 1) e :: tr).
    cbn [for_each]. rewrite Hsc. cbn [bind ret app].
    rewrite Hrun. cbn [app].
    split; [reflexivity|]. split; [constructor; [reflexivity | exact Hext]|].
    split; [cbn; f_equal; exact Hrows|].
    rewrite last_cons_default. exact Hy.
Qed.

(** The second loop: one span per row from the current [y] through
    [y2]. *)
Lemma phase2_run x1 x0 dx12 dy12 dx02 dy02 y2 e :
  dy12 <> 0 -> dy02 <> 0 ->
  forall n fuel s,
    y2 + 1 - t_y s <= Z.of_nat n -> (n <= fuel)%nat ->
    exists s' tr,
      while_ fuel (fun s => t_y s <=? y2)
        (fun s =>
           r <- scanline x1 x0 dx12 dy12 dx02 dy02 (t_y s) e s ;;
           let '(a, b, sa, sb) := r in
           ret (mk_tri_vars a b (t_y s + 1) sa sb)) s = Done s' tr
      /\ Forall (fun c => call_extra c = e) tr
      /\ hline_rows tr = range (t_y s) (y2 + 1).
Proof.
  intros Ha Hb.
  induction n as [|n IH]; intros fuel s Hm Hfuel; rewrite while_unfold;
    destruct (Z.leb_spec (t_y s) y2) as [Hle|Hgt].
  - lia.
  - exists s, []. rewrite range_nil by lia. repeat split; constructor.
  - destruct fuel as [|fuel]; [lia|].
    destruct (scanline_done x1 x0 dx12 dy12 dx02 dy02 (t_y s) e s Ha Hb)
      as (a & b & Hsc).
    destruct (IH fuel
                (mk_tri_vars a b (t_y s + 1) (t_sa s + dx12) (t_sb s + dx02))
                ltac:(cbn; lia) ltac:(lia))
      as (s' & tr & Hrun & Hext & Hrows).
    exists s', (Hline a (t_y s) (b - a + 1) e :: tr).
    rewrite Hsc. cbn [bind ret app]. rewrite Hrun. cbn [app].
    split; [reflexivity|]. split; [constructor; [reflexivity | exact Hext]|].
    rewrite (range_cons (t_y s)) by lia. cbn. f_equal. exact Hrows.
  - exists s, []. rewrite range_nil by lia. repeat split; constructor.
Qed.

(** [fill_triangle_scan] on vertices in ascending [y]: it returns, and
    outside the flat case its spans are on the rows of the first range
    followed by the rows from where [y] was left through [y2]. *)
Lemma fill_triangle_scan_run (x0 y0 x1 y1 x2 y2 : Z) (e : Extra) :
  y0 <= y1 <= y2 ->
  exists fuel tr,
    fill_triangle_scan fuel x0 y0 x1 y1 x2 y2 e = Done tt tr
    /\ Forall (fun c => call_extra c = e) tr
    /\ (y0 <> y2 ->
        let last := if y1 =? y2 then y1 else y1 - 1 in
        hline_rows tr
        = range y0 (last + 1)
          ++ range (if y0 <=? last then last else 0) (y2 + 1)).
Proof.
  intros Hsorted. unfold fill_triangle_scan. cbv zeta.
  destruct (Z.eqb_spec y0 y2) as [Heq|Hne].
  - exists 0%nat.
    destruct (x1 <? x0), (x1 >? x0); cbv beta iota zeta;
      match goal with
      | |- context [?u <? ?v] => destruct (u <? v)
      end;
      try match goal with
          | |- context [?u >? ?v] => destruct (u >? v)
          end;
      cbv beta iota zeta;
      (eexists; split; [reflexivity|];
       split; [repeat constructor | intros; contradiction]).
  - assert (Hd01 : (if y1 - y0 =? 0 then 1 else y1 - y0) <> 0)
      by (destruct (Z.eqb_spec (y1 - y0) 0); lia).
    assert (Hd02 : (if y2 - y0 =? 0 then 1 else y2 - y0) <> 0)
      by (destruct (Z.eqb_spec (y2 - y0) 0); lia).
    assert (Hd12 : (if y2 - y1 =? 0 then 1 else y2 - y1) <> 0)
      by (destruct (Z.eqb_spec (y2 - y1) 0); lia).
    set (lastrow := if y1 =? y2 then y1 else y1 - 1).
    destruct (phase1_run x0 (x1 - x0) _ (x2 - x0) _ e Hd01 Hd02
                (range y0 (lastrow + 1)) (mk_tri_vars 0 0 0 0 0))
      as (s1 & t1 & Hrun1 & Hext1 & Hrows1 & Hy1).
    cbn [t_y] in Hy1.
    destruct (phase2_run x1 x0 (x2 - x1) _ (x2 - x0) _ y2 e Hd12 Hd02
                (Z.to_nat (y2 + 1 - t_y s1)) (Z.to_nat (y2 + 1 - t_y s1))
                (mk_tri_vars (t_a s1) (t_b s1) (t_y s1)
                   ((x2 - x1) * (t_y s1 - y1)) ((x2 - x0) * (t_y s1 - y0)))
                ltac:(cbn; lia) (le_n _))
      as (s2 & t2 & Hrun2 & Hext2 & Hrows2).
    cbn [t_y] in Hrows2.
    exists (Z.to_nat (y2 + 1 - t_y s1)), (t1 ++ t2).
    rewrite Hrun1. cbn [bind]. rewrite Hrun2. cbn [bind ret].
    rewrite app_nil_r.
    split; [reflexivity|]. split; [now apply Forall_app|].
    intros _. cbv zeta. rewrite hline_rows_app, Hrows1, Hrows2, Hy1.
    f_equal. f_equal. fold lastrow.
    destruct (Z.leb_spec y0 lastrow).
    + rewrite last_range by lia. lia.
    + now rewrite range_nil by lia.
Qed.

(** The three conditional swaps pass the vertices on in ascending [y]. *)
Lemma fill_triangle_sorts (x0 y0 x1 y1 x2 y2 : Z) (e : Extra) :
  exists a0 b0 a1 b1 a2 b2,
    b0 <= b1 <= b2
    /\ forall fuel,
        fill_triangle fuel x0 y0 x1 y1 x2 y2 e
        = fill_triangle_scan fuel a0 b0 a1 b1 a2 b2 e.
Proof.
  unfold fill_triangle.
  destruct (Z.gtb_spec y0 y1); cbv beta iota zeta;
    match goal with
    | |- context [?u >? ?v] => destruct (Z.gtb_spec u v)
    end; cbv beta iota zeta;
    match goal with
    | |- context [?u >? ?v] => destruct (Z.gtb_spec u v)
    end; cbv beta iota zeta;
    do 6 eexists; (split; [|intros fuel; reflexivity]); lia.
Qed.

Lemma fill_triangle_of_sorted (fuel : nat) (x0 y0 x1 y1 x2 y2 : Z)
  (e : Extra) :
  y0 <= y1 <= y2 ->
  fill_triangle fuel x0 y0 x1 y1 x2 y2 e
  = fill_triangle_scan fuel x0 y0 x1 y1 x2 y2 e.
Proof.
  intros H. unfold fill_triangle.
  destruct (Z.gtb_spec y0 y1); [lia|]. cbv beta iota zeta.
  destruct (Z.gtb_spec y1 y2); [lia|]. cbv beta iota zeta.
  destruct (Z.gtb_spec y0 y1); [lia|]. reflexivity.
Qed.

Lemma count_occ_range (lo hi v : Z) :
  lo <= v < hi -> count_occ Z.eq_dec (range lo hi) v = 1%nat.
Proof.
  intros H. apply NoDup_count_occ'; [apply NoDup_range | now apply in_range].
Qed.

(** What [fill_triangle] draws for vertices given in ascending [y], not
    all on one row: the rows of the first loop, [y0] through [last], and
    then the rows of the second loop, which starts at the value the first
    loop left in [y]: [last] itself, or [0] when the first range was
    empty. *)
Lemma fill_triangle_rows (x0 y0 x1 y1 x2 y2 : Z) (e : Extra) :
  y0 <= y1 <= y2 -> y0 <> y2 ->
  let last := if y1 =? y2 then y1 else y1 - 1 in
  exists fuel tr,
    fill_triangle fuel x0 y0 x1 y1 x2 y2 e = Done tt tr
    /\ hline_rows tr
       = range y0 (last + 1)
         ++ range (if y0 <=? last then last else 0) (y2 + 1).
Proof.
  intros Hs Hne.
  destruct (fill_triangle_scan_run x0 y0 x1 y1 x2 y2 e Hs)
    as (fuel & tr & Hrun & _ & Hrows).
  exists fuel, tr. rewrite fill_triangle_of_sorted by exact Hs.
  split; [exact Hrun | exact (Hrows Hne)].
Qed.

(** X14.  For vertices in ascending [y], not all on one row, whose first
    loop runs at all ([y0 <= last], where [last] is [y1] when [y1 = y2]
    and [y1 - 1] otherwise), [fill_triangle] issues exactly two spans on
    row [last]: one from each loop. *)
Lemma fill_triangle_row_twice (x0 y0 x1 y1 x2 y2 : Z) (e : Extra) :
  y0 <= y1 <= y2 -> y0 <> y2 ->
  let last := if y1 =? y2 then y1 else y1 - 1 in
  y0 <= last ->
  exists fuel tr,
    fill_triangle fuel x0 y0 x1 y1 x2 y2 e = Done tt tr
    /\ count_occ Z.eq_dec (hline_rows tr) last = 2%nat.
Proof.
  intros Hs Hne lastrow Hlast.
  destruct (fill_triangle_rows x0 y0 x1 y1 x2 y2 e Hs Hne)
    as (fuel & tr & Hrun & Hrows).
  exists fuel, tr. split; [exact Hrun|].
  rewrite Hrows. fold lastrow.
  destruct (Z.leb_spec y0 lastrow); [|lia].
  assert (lastrow <= y2) by (subst lastrow; destruct (y1 =? y2); lia).
  rewrite count_occ_app, !count_occ_range by lia. reflexivity.
Qed.

(** C1 (what the code does).  For the triangle [(0,0)], [(4,2)], [(0,4)],
    already in ascending [y] with [y0 <> y2], [fill_triangle] issues six
    spans for the five rows [0..4]: the first loop draws rows [0] and [1]
    and leaves [y = 1], so the second loop starts at row [1], not at row
    [2], and row [1] gets a second span, seven cells long. *)
Theorem fill_triangle_repeats_row (e : Extra) :
  fill_triangle 4 0 0 4 2 0 4 e
  = Done tt [Hline 0 0 1 e; Hline 0 1 3 e; Hline 0 1 7 e; Hline 0 2 5 e;
             Hline 0 3 3 e; Hline 0 4 1 e].
Proof. reflexivity. Qed.

(** The same defect on a flat-top triangle: the first range is empty, [y]
    is still [0], and the second loop draws rows [0] and [1] above the
    triangle [(0,2)], [(4,2)], [(2,4)]. *)
Lemma fill_triangle_flat_top_rows (e : Extra) :
  fill_triangle 5 0 2 4 2 2 4 e
  = Done tt [Hline (-2) 0 9 e; Hline (-1) 1 7 e; Hline 0 2 5 e;
             Hline 1 3 3 e; Hline 2 4 1 e].
Proof. reflexivity. Qed.

(** *** Every primitive returns and forwards its extra arguments *)

Lemma slow_hline_trace self x y n e :
  exists tr,
    _slow_hline self x y n e = Done tt tr
    /\ Forall (fun c => call_extra c = e) tr.
Proof.
  unfold _slow_hline. destruct (_ || _ || _ || _); [exists []; now split|].
  rewrite (for_each_emit (fun i => Pixel (x + i) y e)).
  eexists. split; [reflexivity|]. apply Forall_map, Forall_forall. reflexivity.
Qed.

Lemma slow_vline_trace self x y n e :
  exists tr,
    _slow_vline self x y n e = Done tt tr
    /\ Forall (fun c => call_extra c = e) tr.
Proof.
  unfold _slow_vline. destruct (_ || _ || _ || _); [exists []; now split|].
  rewrite (for_each_emit (fun i => Pixel x (y + i) e)).
  eexists. split; [reflexivity|]. apply Forall_map, Forall_forall. reflexivity.
Qed.

Lemma rect_trace self x0 y0 width height e :
  exists tr,
    rect self x0 y0 width height e = Done tt tr
    /\ Forall (fun c => call_extra c = e) tr.
Proof.
  unfold rect. destruct (_ || _ || _ || _); [exists []; now split|].
  eexists. split; [reflexivity|]. repeat constructor.
Qed.

Lemma fill_rect_trace self x0 y0 width height e :
  exists tr,
    _fill_rect self x0 y0 width height e = Done tt tr
    /\ Forall (fun c => call_extra c = e) tr.
Proof.
  unfold _fill_rect. destruct (_ || _ || _ || _); [exists []; now split|].
  rewrite (for_each_emit (fun i => Vline i y0 height e)).
  eexists. split; [reflexivity|]. apply Forall_map, Forall_forall. reflexivity.
Qed.

Lemma pixel_calls_extra self e m tr :
  m = Done tt tr -> Forall (fun c => call_extra c = e) tr ->
  Forall (fun b => backend_extra b = e) (pixel_calls self m).
Proof.
  intros -> H. cbn. induction H as [|c tr Hc _ IH]; cbn; [constructor|].
  apply Forall_app. split; [|exact IH].
  destruct c; cbn in *; repeat constructor; exact Hc.
Qed.

Lemma dispatch_extra self e c :
  call_extra c = e -> Forall (fun b => backend_extra b = e) (dispatch self c).
Proof.
  intros Hc. destruct c as [x y e'|x y w e'|x y h e']; cbn in Hc; subst e';
    cbn.
  - repeat constructor.
  - destruct (self_hline self); [repeat constructor|].
    destruct (slow_hline_trace self x y w e) as (tr & Hrun & Hext).
    exact (pixel_calls_extra self e _ tr Hrun Hext).
  - destruct (self_vline self); [repeat constructor|].
    destruct (slow_vline_trace self x y h e) as (tr & Hrun & Hext).
    exact (pixel_calls_extra self e _ tr Hrun Hext).
Qed.

Lemma backend_trace_extra self e tr :
  Forall (fun c => call_extra c = e) tr ->
  Forall (fun b => backend_extra b = e) (backend_trace self tr).
Proof.
  induction 1 as [|c tr Hc _ IH]; cbn; [constructor|].
  apply Forall_app. split; [now apply dispatch_extra | exact IH].
Qed.

Lemma forwards_intro self e m tr :
  m = Done tt tr -> Forall (fun c => call_extra c = e) tr ->
  forwards_extra self e m.
Proof.
  intros Hm Hext. exists tr.
  split; [exact Hm|]. split; [exact Hext | now apply backend_trace_extra].
Qed.

Lemma forwards_returns self e m : forwards_extra self e m -> returns m.
Proof. intros (tr & Hm & _). now exists tr. Qed.

Lemma all_primitives_forward (self : GFX) (e : Extra) :
  (forall x y n, forwards_extra self e (_slow_hline self x y n e))
  /\ (forall x y n, forwards_extra self e (_slow_vline self x y n e))
  /\ (forall x0 y0 width height,
        forwards_extra self e (rect self x0 y0 width height e))
  /\ (forall x0 y0 width height,
        forwards_extra self e (_fill_rect self x0 y0 width height e))
  /\ (forall x0 y0 x1 y1,
        exists fuel, forwards_extra self e (line fuel x0 y0 x1 y1 e))
  /\ (forall x0 y0 radius,
        exists fuel, forwards_extra self e (circle fuel x0 y0 radius e))
  /\ (forall x0 y0 radius,
        exists fuel, forwards_extra self e (fill_circle fuel x0 y0 radius e))
  /\ (forall x0 y0 x1 y1 x2 y2,
        exists fuel,
          forwards_extra self e (triangle fuel x0 y0 x1 y1 x2 y2 e))
  /\ (forall x0 y0 x1 y1 x2 y2,
        exists fuel,
          forwards_extra self e (fill_triangle fuel x0 y0 x1 y1 x2 y2 e)).
Proof.
  repeat split; intros.
  - destruct (slow_hline_trace self x y n e) as (tr & H1 & H2).
    exact (forwards_intro self e _ tr H1 H2).
  - destruct (slow_vline_trace self x y n e) as (tr & H1 & H2).
    exact (forwards_intro self e _ tr H1 H2).
  - destruct (rect_trace self x0 y0 width height e) as (tr & H1 & H2).
    exact (forwards_intro self e _ tr H1 H2).
  - destruct (fill_rect_trace self x0 y0 width height e) as (tr & H1 & H2).
    exact (forwards_intro self e _ tr H1 H2).
  - destruct (line_run x0 y0 x1 y1 e _ (le_n _)) as (tr & H1 & _ & H2 & _).
    eexists. exact (forwards_intro self e _ tr H1 H2).
  - destruct (circle_run x0 y0 radius e _ (le_n _)) as (tr & H1 & _ & H2 & _).
    eexists. exact (forwards_intro self e _ tr H1 H2).
  - destruct (fill_circle_run x0 y0 radius e _ (le_n _)) as (tr & H1 & H2).
    eexists. exact (forwards_intro self e _ tr H1 H2).
  - destruct (triangle_run x0 y0 x1 y1 x2 y2 e) as (fuel & tr & H1 & _ & H2).
    exists fuel. exact (forwards_intro self e _ tr H1 H2).
  - destruct (fill_triangle_sorts x0 y0 x1 y1 x2 y2 e)
      as (a0 & b0 & a1 & b1 & a2 & b2 & Hs & Heq).
    destruct (fill_triangle_scan_run a0 b0 a1 b1 a2 b2 e Hs)
      as (fuel & tr & H1 & H2 & _).
    exists fuel. rewrite Heq. exact (forwards_intro self e _ tr H1 H2).
Qed.

(** *** Fuel is only a bound

    A primitive that returned on some fuel returns the same calls on any
    larger fuel, so the calls it issues do not depend on the fuel. *)

Lemma bind_while_fuel_mono {S A} (cond : S -> bool) (body : S -> M S)
  (k : S -> M A) n m s a tr :
  (n <= m)%nat ->
  bind (while_ n cond body s) k = Done a tr ->
  bind (while_ m cond body s) k = Done a tr.
Proof.
  intros Hle H. apply bind_done_inv in H as (s' & t1 & t2 & Hw & Hk & ->).
  rewrite (while_fuel_mono cond body n m s s' t1 Hle Hw). now apply bind_done_done.
Qed.

Lemma line_fuel_mono n m x0 y0 x1 y1 e tr :
  (n <= m)%nat ->
  line n x0 y0 x1 y1 e = Done tt tr -> line m x0 y0 x1 y1 e = Done tt tr.
Proof.
  intros Hle. unfold line.
  destruct (Z.abs (y1 - y0) >? Z.abs (x1 - x0)); cbv beta iota zeta;
    match goal with
    | |- context [?u >? ?v] => destruct (u >? v)
    end; cbv beta iota zeta; unfold floordiv; cbn [Z.eqb bind ret];
    destruct (bind (while_ n _ _ _) _) as [[] t| |] eqn:Hn;
    try discriminate;
    rewrite (bind_while_fuel_mono _ _ _ n m _ _ _ Hle Hn); trivial.
Qed.

Lemma circle_fuel_mono n m x0 y0 r e tr :
  (n <= m)%nat ->
  circle n x0 y0 r e = Done tt tr -> circle m x0 y0 r e = Done tt tr.
Proof.
  intros Hle. unfold circle. cbv zeta. cbn [pixel emit bind].
  destruct (bind (while_ n _ _ _) _) as [[] t| |] eqn:Hn; try discriminate.
  rewrite (bind_while_fuel_mono _ _ _ n m _ _ _ Hle Hn). trivial.
Qed.

Lemma fill_circle_fuel_mono n m x0 y0 r e tr :
  (n <= m)%nat ->
  fill_circle n x0 y0 r e = Done tt tr ->
  fill_circle m x0 y0 r e = Done tt tr.
Proof.
  intros Hle. unfold fill_circle. cbv zeta. cbn [vline emit bind].
  destruct (bind (while_ n _ _ _) _) as [[] t| |] eqn:Hn; try discriminate.
  rewrite (bind_while_fuel_mono _ _ _ n m _ _ _ Hle Hn). trivial.
Qed.

Lemma triangle_fuel_mono n m x0 y0 x1 y1 x2 y2 e tr :
  (n <= m)%nat ->
  triangle n x0 y0 x1 y1 x2 y2 e = Done tt tr ->
  triangle m x0 y0 x1 y1 x2 y2 e = Done tt tr.
Proof.
  intros Hle H. unfold triangle in *.
  apply bind_done_inv in H as ([] & t1 & t' & H1 & H & ->).
  apply bind_done_inv in H as ([] & t2 & t3 & H2 & H3 & ->).
  rewrite (line_fuel_mono n m _ _ _ _ e _ Hle H1),
    (line_fuel_mono n m _ _ _ _ e _ Hle H2),
    (line_fuel_mono n m _ _ _ _ e _ Hle H3).
  reflexivity.
Qed.

Lemma fill_triangle_fuel_mono n m x0 y0 x1 y1 x2 y2 e tr :
  (n <= m)%nat ->
  fill_triangle n x0 y0 x1 y1 x2 y2 e = Done tt tr ->
  fill_triangle m x0 y0 x1 y1 x2 y2 e = Done tt tr.
Proof.
  intros Hle.
  destruct (fill_triangle_sorts x0 y0 x1 y1 x2 y2 e)
    as (a0 & b0 & a1 & b1 & a2 & b2 & _ & Heq).
  rewrite !Heq. unfold fill_triangle_scan. cbv zeta.
  destruct (b0 =? b2); [trivial|].
  intros H. apply bind_done_inv in H as (s1 & t1 & t2 & H1 & H2 & ->).
  rewrite H1. apply bind_done_done.
  exact (bind_while_fuel_mono _ _ _ n m _ _ _ Hle H2).
Qed.

(** C8.  Every primitive ([line], [rect], [_fill_rect], [circle],
    [fill_circle], [triangle], [fill_triangle]) and both span fallbacks
    return, without raising, on every integer input: negative width or
    height, radius zero or below, collinear or coincident vertices
    included.  For the primitives with a [while] loop, some fuel lets the
    model return. *)
Theorem primitives_total (self : GFX) (e : Extra) :
  (forall x y n, returns (_slow_hline self x y n e))
  /\ (forall x y n, returns (_slow_vline self x y n e))
  /\ (forall x0 y0 width height, returns (rect self x0 y0 width height e))
  /\ (forall x0 y0 width height,
        returns (_fill_rect self x0 y0 width height e))
  /\ (forall x0 y0 x1 y1, exists fuel, returns (line fuel x0 y0 x1 y1 e))
  /\ (forall x0 y0 radius, exists fuel, returns (circle fuel x0 y0 radius e))
  /\ (forall x0 y0 radius,
        exists fuel, returns (fill_circle fuel x0 y0 radius e))
  /\ (forall x0 y0 x1 y1 x2 y2,
        exists fuel, returns (triangle fuel x0 y0 x1 y1 x2 y2 e))
  /\ (forall x0 y0 x1 y1 x2 y2,
        exists fuel, returns (fill_triangle fuel x0 y0 x1 y1 x2 y2 e)).
Proof.
  destruct (all_primitives_forward self e)
    as (H1 & H2 & H3 & H4 & H5 & H6 & H7 & H8 & H9).
  repeat split; intros.
  - exact (forwards_returns self e _ (H1 x y n)).
  - exact (forwards_returns self e _ (H2 x y n)).
  - exact (forwards_returns self e _ (H3 x0 y0 width height)).
  - exact (forwards_returns self e _ (H4 x0 y0 width height)).
  - destruct (H5 x0 y0 x1 y1) as [fuel H]. exists fuel.
    exact (forwards_returns self e _ H).
  - destruct (H6 x0 y0 radius) as [fuel H]. exists fuel.
    exact (forwards_returns self e _ H).
  - destruct (H7 x0 y0 radius) as [fuel H]. exists fuel.
    exact (forwards_returns self e _ H).
  - destruct (H8 x0 y0 x1 y1 x2 y2) as [fuel H]. exists fuel.
    exact (forwards_returns self e _ H).
  - destruct (H9 x0 y0 x1 y1 x2 y2) as [fuel H]. exists fuel.
    exact (forwards_returns self e _ H).
Qed.

(** C9.  Whatever extra arguments [e] a primitive is called with, every
    call it issues on the context carries [e], and so does every call
    that reaches the driver through them, the pixel calls of the span
    fallbacks included. *)
Theorem extra_forwarded_unchanged (self : GFX) (e : Extra) :
  (forall x y n, forwards_extra self e (_slow_hline self x y n e))
  /\ (forall x y n, forwards_extra self e (_slow_vline self x y n e))
  /\ (forall x0 y0 width height,
        forwards_extra self e (rect self x0 y0 width height e))
  /\ (forall x0 y0 width height,
        forwards_extra self e (_fill_rect self x0 y0 width height e))
  /\ (forall x0 y0 x1 y1,
        exists fuel, forwards_extra self e (line fuel x0 y0 x1 y1 e))
  /\ (forall x0 y0 radius,
        exists fuel, forwards_extra self e (circle fuel x0 y0 radius e))
  /\ (forall x0 y0 radius,
        exists fuel, forwards_extra self e (fill_circle fuel x0 y0 radius e))
  /\ (forall x0 y0 x1 y1 x2 y2,
        exists fuel,
          forwards_extra self e (triangle fuel x0 y0 x1 y1 x2 y2 e))
  /\ (forall x0 y0 x1 y1 x2 y2,
        exists fuel,
          forwards_extra self e (fill_triangle fuel x0 y0 x1 y1 x2 y2 e)).
Proof. exact (all_primitives_forward self e). Qed.

(** *** The path of a line *)

Lemma line_body_step steep dx dy ystep e x y err :
  line_body steep dx dy ystep e (mk_line_vars x y err)
  = Done (if err - dy <? 0
          then mk_line_vars (x + 1) (y + ystep) (err - dy + dx)
          else mk_line_vars (x + 1) y (err - dy))
      [if steep then Pixel y x e else Pixel x y e].
Proof.
  unfold line_body. cbn [l_x0 l_y0 l_err].
  destruct steep, (err - dy <? 0); reflexivity.
Qed.

(** The loop of [line] as a walk.  [j] counts the steps taken on the minor
    axis so far; the error term ties it to the distance walked, which
    keeps the walk on the way to the far endpoint and makes it end
    there. *)
Lemma line_loop_walk steep (x0 y0 x1 dy ystep : Z) (e : Extra) :
  x0 <= x1 -> 0 <= dy <= x1 - x0 ->
  forall n fuel x j err,
    x1 + 1 - x = Z.of_nat n -> (n <= fuel)%nat -> x0 <= x -> 0 <= j ->
    err = (x1 - x0) / 2 - (x - x0) * dy + j * (x1 - x0) ->
    0 <= err -> (err < x1 - x0 \/ (x1 - x0 = 0 /\ j = 0)) ->
    exists s' tr pts,
      while_ fuel (fun s => l_x0 s <=? x1)
        (line_body steep (x1 - x0) dy ystep e)
        (mk_line_vars x (y0 + ystep * j) err) = Done s' tr
      /\ pixels tr = map (place steep) pts
      /\ walk ystep pts
      /\ Forall (fun p => x <= fst p <= x1
                          /\ exists k, j <= k <= dy /\ snd p = y0 + ystep * k)
           pts
      /\ (n <> 0%nat ->
          exists rest,
            pts = (x, y0 + ystep * j) :: rest
            /\ forall d, last pts d = (x1, y0 + ystep * dy))
      /\ map fst pts = range x (x1 + 1).
Proof.
  intros Hx01 Hdy.
  assert (Hhalf : 0 <= (x1 - x0) / 2 /\ 2 * ((x1 - x0) / 2) <= x1 - x0
                  /\ x1 - x0 < 2 * ((x1 - x0) / 2) + 2).
  { pose proof (Z.div_mod (x1 - x0) 2 ltac:(lia)).
    pose proof (Z.mod_pos_bound (x1 - x0) 2 ltac:(lia)). lia. }
  induction n as [|n IH]; intros fuel x j err Hn Hfuel Hx Hj Herr Hlo Hhi;
    rewrite while_unfold; cbn [l_x0];
    destruct (Z.leb_spec x x1) as [Hle|Hgt]; try lia.
  - exists (mk_line_vars x (y0 + ystep * j) err), [], [].
    rewrite range_nil by lia.
    repeat split; try constructor. intros []. reflexivity.
  - destruct fuel as [|fuel]; [lia|].
    rewrite line_body_step.
    assert (Hjdy : j <= dy) by nia.
    destruct (Z.ltb_spec (err - dy) 0) as [Hneg|Hpos].
    + destruct (IH fuel (x + 1) (j + 1) (err - dy + (x1 - x0)))
        as (s' & tr & pts & Hrun & Hpix & Hwalk & Hall & Hends & Hfst);
        try lia.
      replace (y0 + ystep * (j + 1)) with (y0 + ystep * j + ystep) in Hrun
        by lia.
      eexists s', _, ((x, y0 + ystep * j) :: pts).
      split; [apply bind_done_done, Hrun|].
      split; [destruct steep; cbn; f_equal; exact Hpix|].
      split.
      { destruct n as [|n].
        - destruct pts as [|q pts]; [exact I|].
          inversion Hall as [|? ? [Hq _] _]; subst. lia.
        - destruct (Hends ltac:(lia)) as (rest & -> & _).
          cbn [walk fst snd]. split; [reflexivity|].
          split; [right; lia | exact Hwalk]. }
      split.
      { constructor.
        - cbn. split; [lia|]. exists j. split; [lia | reflexivity].
        - eapply Forall_impl; [|exact Hall]. cbn.
          intros p [Hp (k & Hk & Hs)]. split; [lia|].
          exists k. split; [lia | exact Hs]. }
      split;
        [|rewrite (range_cons x) by lia; cbn [map fst]; f_equal; exact Hfst].
      intros _. eexists. split; [reflexivity|]. intros d.
      rewrite last_cons_default.
      destruct n as [|n].
      * destruct pts as [|q pts].
        -- cbn. f_equal; [lia|]. f_equal. f_equal. nia.
        -- inversion Hall as [|? ? [Hq _] _]; subst. lia.
      * destruct (Hends ltac:(lia)) as (rest & _ & Hlast). apply Hlast.
    + assert (Hhi' : err - dy < x1 - x0 \/ (x1 - x0 = 0 /\ j = 0))
        by (destruct Hhi as [Hhi|[Hz Hj0]]; [left; lia | right; lia]).
      destruct (IH fuel (x + 1) j (err - dy))
        as (s' & tr & pts & Hrun & Hpix & Hwalk & Hall & Hends & Hfst);
        try lia.
      eexists s', _, ((x, y0 + ystep * j) :: pts).
      split; [apply bind_done_done, Hrun|].
      split; [destruct steep; cbn; f_equal; exact Hpix|].
      split.
      { destruct n as [|n].
        - destruct pts as [|q pts]; [exact I|].
          inversion Hall as [|? ? [Hq _] _]; subst. lia.
        - destruct (Hends ltac:(lia)) as (rest & -> & _).
          cbn [walk fst snd]. split; [reflexivity|].
          split; [left; reflexivity | exact Hwalk]. }
      split.
      { constructor.
        - cbn. split; [lia|]. exists j. split; [lia | reflexivity].
        - eapply Forall_impl; [|exact Hall]. cbn.
          intros p [Hp (k & Hk & Hs)]. split; [lia|].
          exists k. split; [lia | exact Hs]. }
      split;
        [|rewrite (range_cons x) by lia; cbn [map fst]; f_equal; exact Hfst].
      intros _. eexists. split; [reflexivity|]. intros d.
      rewrite last_cons_default.
      destruct n as [|n].
      * destruct pts as [|q pts].
        -- cbn. f_equal; [lia|]. f_equal. f_equal.
           destruct Hhi as [Hhi|[Hz ->]]; nia.
        -- inversion Hall as [|? ? [Hq _] _]; subst. lia.
      * destruct (Hends ltac:(lia)) as (rest & _ & Hlast). apply Hlast.
Qed.


Lemma last_map_cons {A B} (f : A -> B) (p : A) (l : list A) (d : A) (d' : B) :
  last (map f (p :: l)) d' = f (last (p :: l) d).
Proof.
  revert p. induction l as [|q l IH]; intros p; [reflexivity|].
  change (last (map f (q :: l)) d' = f (last (q :: l) d)). apply IH.
Qed.

Lemma connected_of_walk steep ystep pts :
  ystep = 1 \/ ystep = -1 -> walk ystep pts ->
  connected (map (place steep) pts).
Proof.
  intros Hstep. induction pts as [|p [|q pts] IH]; intros Hw; try exact I.
  destruct Hw as (Hf & Hs & Hw). split; [|exact (IH Hw)].
  unfold place. destruct steep; cbn [fst snd]; lia.
Qed.

(** The loop of [line] with what surrounds it, for endpoints in walking
    order on the major axis [a] and no further apart on the minor axis
    [b]. *)
Lemma line_tail_walk steep (a0 b0 a1 b1 : Z) (e : Extra) :
  a0 <= a1 -> Z.abs (b1 - b0) <= a1 - a0 ->
  exists fuel tr rest,
    (err <- floordiv (a1 - a0) 2 ;;
     while_ fuel (fun s => l_x0 s <=? a1)
       (line_body steep (a1 - a0) (Z.abs (b1 - b0))
          (if b0 <? b1 then 1 else -1) e)
       (mk_line_vars a0 b0 err) ;;
     ret tt) = Done tt tr
    /\ pixels tr = place steep (a0, b0) :: rest
    /\ (forall d, last (pixels tr) d = place steep (a1, b1))
    /\ connected (pixels tr)
    /\ Forall (fun p =>
                 in_box (fst (place steep (a0, b0))) (snd (place steep (a0, b0)))
                   (fst (place steep (a1, b1))) (snd (place steep (a1, b1))) p)
         (pixels tr)
    /\ map (fun p : Z * Z => if steep then snd p else fst p) (pixels tr)
       = range a0 (a1 + 1).
Proof.
  intros Ha Hb.
  set (ystep := if b0 <? b1 then 1 else -1).
  assert (Hstep : ystep = 1 \/ ystep = -1)
    by (subst ystep; destruct (b0 <? b1); auto).
  assert (Hend : b0 + ystep * Z.abs (b1 - b0) = b1)
    by (subst ystep; destruct (Z.ltb_spec b0 b1); lia).
  assert (Hdiv : 0 <= (a1 - a0) / 2) by (apply Z.div_pos; lia).
  assert (Hhi : (a1 - a0) / 2 < a1 - a0 \/ (a1 - a0 = 0 /\ 0 = 0)).
  { destruct (Z.eq_dec (a1 - a0) 0) as [Hz|Hz]; [right; lia|].
    left. apply Z.div_lt; lia. }
  destruct (line_loop_walk steep a0 b0 a1 (Z.abs (b1 - b0)) ystep e Ha
              ltac:(lia) (Z.to_nat (a1 + 1 - a0)) (Z.to_nat (a1 + 1 - a0))
              a0 0 ((a1 - a0) / 2) ltac:(lia) (le_n _) ltac:(lia) ltac:(lia)
              ltac:(lia) Hdiv Hhi)
    as (s' & tr & pts & Hrun & Hpix & Hwalk & Hall & Hends & Hfst).
  replace (b0 + ystep * 0) with b0 in Hrun by lia.
  destruct (Hends ltac:(lia)) as (rest & Hpts & Hlast).
  replace (b0 + ystep * 0) with b0 in Hpts by lia.
  exists (Z.to_nat (a1 + 1 - a0)), tr, (map (place steep) rest).
  unfold floordiv. cbn [Z.eqb bind ret]. rewrite Hrun.
  cbn [bind ret app]. rewrite app_nil_r.
  split; [reflexivity|]. rewrite Hpix.
  split; [rewrite Hpts; reflexivity|].
  split.
  { intros d. rewrite Hpts at 1. rewrite (last_map_cons _ _ _ (0, 0)).
    rewrite <- Hpts, Hlast, Hend. reflexivity. }
  split; [now apply (connected_of_walk steep ystep)|].
  split.
  { apply Forall_map. eapply Forall_impl; [|exact Hall].
    intros [pa pb] [Hp (k & Hk & Hs)]. cbn [fst snd] in *.
    assert (Hbox : Z.min b0 b1 <= pb <= Z.max b0 b1)
      by (subst ystep; destruct (Z.ltb_spec b0 b1); lia).
    unfold in_box, place. destruct steep; cbn [fst snd]; lia. }
  rewrite <- Hfst, map_map. apply map_ext.
  intros [pa pb]. unfold place. now destruct steep.
Qed.

(** [line] as a path: it returns; its first pixel is the endpoint that
    comes first on the major axis and its last pixel is the other
    endpoint; each pixel is a neighbour of the one before; and all of them
    lie in the bounding box of the endpoints. *)
Lemma line_path (x0 y0 x1 y1 : Z) (e : Extra) :
  exists fuel tr rest,
    line fuel x0 y0 x1 y1 e = Done tt tr
    /\ (let forward :=
          if Z.abs (y1 - y0) >? Z.abs (x1 - x0) then y0 <=? y1 else x0 <=? x1 in
        pixels tr = (if forward then (x0, y0) else (x1, y1)) :: rest
        /\ forall d,
            last (pixels tr) d = if forward then (x1, y1) else (x0, y0))
    /\ connected (pixels tr)
    /\ Forall (in_box x0 y0 x1 y1) (pixels tr).
Proof.
  unfold line.
  destruct (Z.gtb_spec (Z.abs (y1 - y0)) (Z.abs (x1 - x0))) as [Hs|Hs];
    cbv beta iota zeta.
  - destruct (Z.gtb_spec y0 y1) as [Hc|Hc]; cbv beta iota zeta.
    + destruct (line_tail_walk true y1 x1 y0 x0 e ltac:(lia) ltac:(lia))
        as (fuel & tr & rest & Hrun & Hhd & Hlast & Hconn & Hbox & _).
      exists fuel, tr, rest. split; [exact Hrun|].
      destruct (Z.leb_spec y0 y1); [lia|]. split; [now split|].
      split; [exact Hconn|]. eapply Forall_impl; [|exact Hbox].
      unfold in_box, place. cbn [fst snd]. intros p. lia.
    + destruct (line_tail_walk true y0 x0 y1 x1 e ltac:(lia) ltac:(lia))
        as (fuel & tr & rest & Hrun & Hhd & Hlast & Hconn & Hbox & _).
      exists fuel, tr, rest. split; [exact Hrun|].
      destruct (Z.leb_spec y0 y1); [|lia]. split; [now split|].
      split; [exact Hconn|]. eapply Forall_impl; [|exact Hbox].
      unfold in_box, place. cbn [fst snd]. intros p. lia.
  - destruct (Z.gtb_spec x0 x1) as [Hc|Hc]; cbv beta iota zeta.
    + destruct (line_tail_walk false x1 y1 x0 y0 e ltac:(lia) ltac:(lia))
        as (fuel & tr & rest & Hrun & Hhd & Hlast & Hconn & Hbox & _).
      exists fuel, tr, rest. split; [exact Hrun|].
      destruct (Z.leb_spec x0 x1); [lia|]. split; [now split|].
      split; [exact Hconn|]. eapply Forall_impl; [|exact Hbox].
      unfold in_box, place. cbn [fst snd]. intros p. lia.
    + destruct (line_tail_walk false x0 y0 x1 y1 e ltac:(lia) ltac:(lia))
        as (fuel & tr & rest & Hrun & Hhd & Hlast & Hconn & Hbox & _).
      exists fuel, tr, rest. split; [exact Hrun|].
      destruct (Z.leb_spec x0 x1); [|lia]. split; [now split|].
      split; [exact Hconn|]. eapply Forall_impl; [|exact Hbox].
      unfold in_box, place. cbn [fst snd]. intros p. lia.
Qed.


Lemma last_in_cons {A} (p : A) (l : list A) (d : A) : In (last (p :: l) d) (p :: l).
Proof.
  revert p. induction l as [|q l IH]; intros p; [now left|].
  right. change (In (last (q :: l) d) (q :: l)). apply IH.
Qed.

Lemma pairs_of_fst (y : Z) (l : list (Z * Z)) (r : list Z) :
  map fst l = r -> Forall (fun p => snd p = y) l ->
  l = map (fun x => (x, y)) r.
Proof.
  intros <- H. induction H as [|[a b] l Hb _ IH]; [reflexivity|].
  cbn in *. subst b. now rewrite <- IH.
Qed.

Lemma pairs_of_snd (x : Z) (l : list (Z * Z)) (r : list Z) :
  map snd l = r -> Forall (fun p => fst p = x) l ->
  l = map (fun y => (x, y)) r.
Proof.
  intros <- H. induction H as [|[a b] l Ha _ IH]; [reflexivity|].
  cbn in *. subst a. now rewrite <- IH.
Qed.

(** X1.  [line] draws both endpoints: its first pixel is the endpoint that
    comes first on the major axis ([y] for a steep line, else [x]) and its
    last pixel is the other endpoint. *)
Theorem line_draws_endpoints (x0 y0 x1 y1 : Z) (e : Extra) :
  exists fuel tr rest,
    line fuel x0 y0 x1 y1 e = Done tt tr
    /\ (let forward :=
          if Z.abs (y1 - y0) >? Z.abs (x1 - x0) then y0 <=? y1 else x0 <=? x1 in
        pixels tr = (if forward then (x0, y0) else (x1, y1)) :: rest
        /\ forall d,
            last (pixels tr) d = if forward then (x1, y1) else (x0, y0))
    /\ In (x0, y0) (pixels tr) /\ In (x1, y1) (pixels tr).
Proof.
  destruct (line_path x0 y0 x1 y1 e)
    as (fuel & tr & rest & Hrun & [Hhd Hlast] & _).
  exists fuel, tr, rest. split; [exact Hrun|]. split; [now split|].
  pose proof (last_in_cons
                (if if Z.abs (y1 - y0) >? Z.abs (x1 - x0)
                    then y0 <=? y1 else x0 <=? x1
                 then (x0, y0) else (x1, y1)) rest (0, 0)) as Hin.
  rewrite <- Hhd in Hin. rewrite Hlast in Hin.
  destruct (if Z.abs (y1 - y0) >? Z.abs (x1 - x0)
            then y0 <=? y1 else x0 <=? x1);
    rewrite Hhd in *; split; solve [now left | exact Hin].
Qed.

(** X2.  The pixels of a line form a connected path: each pixel is at
    distance exactly one from the one before it, counting a diagonal step
    as one. *)
Theorem line_connected (x0 y0 x1 y1 : Z) (e : Extra) :
  exists fuel tr,
    line fuel x0 y0 x1 y1 e = Done tt tr /\ connected (pixels tr).
Proof.
  destruct (line_path x0 y0 x1 y1 e)
    as (fuel & tr & rest & Hrun & _ & Hconn & _).
  now exists fuel, tr.
Qed.

(** X3.  Every pixel of a line lies in the bounding box of its two
    endpoints. *)
Theorem line_in_bounding_box (x0 y0 x1 y1 : Z) (e : Extra) :
  exists fuel tr,
    line fuel x0 y0 x1 y1 e = Done tt tr
    /\ Forall (in_box x0 y0 x1 y1) (pixels tr).
Proof.
  destruct (line_path x0 y0 x1 y1 e)
    as (fuel & tr & rest & Hrun & _ & _ & Hbox).
  now exists fuel, tr.
Qed.

(** X4.  A horizontal line is the run of cells of its row from the smaller
    to the larger [x], in ascending order, and a vertical line is the run
    of cells of its column in ascending [y]; a single point gives one
    pixel. *)
Theorem line_axis_aligned (e : Extra) :
  (forall x0 x1 y,
      exists fuel tr,
        line fuel x0 y x1 y e = Done tt tr
        /\ pixels tr
           = map (fun x => (x, y)) (range (Z.min x0 x1) (Z.max x0 x1 + 1)))
  /\ (forall x y0 y1,
        exists fuel tr,
          line fuel x y0 x y1 e = Done tt tr
          /\ pixels tr
             = map (fun y => (x, y)) (range (Z.min y0 y1) (Z.max y0 y1 + 1))).
Proof.
  split.
  - intros x0 x1 y. unfold line.
    destruct (Z.gtb_spec (Z.abs (y - y)) (Z.abs (x1 - x0))) as [Hs|_];
      [lia|]. cbv beta iota zeta.
    destruct (Z.gtb_spec x0 x1) as [Hc|Hc]; cbv beta iota zeta.
    + destruct (line_tail_walk false x1 y x0 y e ltac:(lia) ltac:(lia))
        as (fuel & tr & rest & Hrun & _ & _ & _ & Hbox & Hfst).
      exists fuel, tr. split; [exact Hrun|].
      replace (Z.min x0 x1) with x1 by lia.
      replace (Z.max x0 x1) with x0 by lia.
      apply pairs_of_fst; [exact Hfst|].
      eapply Forall_impl; [|exact Hbox].
      unfold in_box, place. cbn [fst snd]. intros p. lia.
    + destruct (line_tail_walk false x0 y x1 y e ltac:(lia) ltac:(lia))
        as (fuel & tr & rest & Hrun & _ & _ & _ & Hbox & Hfst).
      exists fuel, tr. split; [exact Hrun|].
      replace (Z.min x0 x1) with x0 by lia.
      replace (Z.max x0 x1) with x1 by lia.
      apply pairs_of_fst; [exact Hfst|].
      eapply Forall_impl; [|exact Hbox].
      unfold in_box, place. cbn [fst snd]. intros p. lia.
  - intros x y0 y1. unfold line.
    destruct (Z.gtb_spec (Z.abs (y1 - y0)) (Z.abs (x - x))) as [Hs|Hs];
      cbv beta iota zeta.
    + destruct (Z.gtb_spec y0 y1) as [Hc|Hc]; cbv beta iota zeta.
      * destruct (line_tail_walk true y1 x y0 x e ltac:(lia) ltac:(lia))
          as (fuel & tr & rest & Hrun & _ & _ & _ & Hbox & Hsnd).
        exists fuel, tr. split; [exact Hrun|].
        replace (Z.min y0 y1) with y1 by lia.
        replace (Z.max y0 y1) with y0 by lia.
        apply pairs_of_snd; [exact Hsnd|].
        eapply Forall_impl; [|exact Hbox].
        unfold in_box, place. cbn [fst snd]. intros p. lia.
      * destruct (line_tail_walk true y0 x y1 x e ltac:(lia) ltac:(lia))
          as (fuel & tr & rest & Hrun & _ & _ & _ & Hbox & Hsnd).
        exists fuel, tr. split; [exact Hrun|].
        replace (Z.min y0 y1) with y0 by lia.
        replace (Z.max y0 y1) with y1 by lia.
        apply pairs_of_snd; [exact Hsnd|].
        eapply Forall_impl; [|exact Hbox].
        unfold in_box, place. cbn [fst snd]. intros p. lia.
    + assert (y1 = y0) by lia. subst y1.
      destruct (Z.gtb_spec x x) as [Hc|_]; [lia|]. cbv beta iota zeta.
      destruct (line_tail_walk false x y0 x y0 e ltac:(lia) ltac:(lia))
        as (fuel & tr & rest & Hrun & Hhd & _ & _ & _ & Hfst).
      exists fuel, tr. split; [exact Hrun|].
      replace (Z.min y0 y0) with y0 by lia.
      replace (Z.max y0 y0) with y0 by lia.
      rewrite range_cons, range_nil in Hfst |- * by lia.
      rewrite Hhd in Hfst |- *. cbn in Hfst |- *.
      destruct rest; [reflexivity | discriminate].
Qed.


Lemma ends_in {A} (l : list A) (first final : A) (rest : list A) :
  l = first :: rest -> (forall d, last l d = final) ->
  In first l /\ In final l.
Proof.
  intros -> Hlast. split; [now left|].
  rewrite <- (Hlast first). apply last_in_cons.
Qed.

(** [line] on any fuel from some bound on: the count of C4 and the two
    endpoints together. *)
Lemma line_full (x0 y0 x1 y1 : Z) (e : Extra) :
  exists fuel0,
    forall fuel, (fuel0 <= fuel)%nat ->
      exists tr,
        line fuel x0 y0 x1 y1 e = Done tt tr
        /\ Forall is_pixel tr
        /\ Z.of_nat (length tr)
           = Z.max (Z.abs (x1 - x0)) (Z.abs (y1 - y0)) + 1
        /\ In (x0, y0) (pixels tr) /\ In (x1, y1) (pixels tr).
Proof.
  destruct (line_path x0 y0 x1 y1 e)
    as (fuel1 & tr & rest & Hrun & [Hhd Hlast] & _).
  exists (fuel1 + Z.to_nat (Z.max (Z.abs (x1 - x0)) (Z.abs (y1 - y0)) + 1))%nat.
  intros fuel Hfuel.
  destruct (line_run x0 y0 x1 y1 e fuel
              (Nat.le_trans _ _ _ (Nat.le_add_l _ _) Hfuel))
    as (tr' & Hrun' & Hpix & _ & Hlen & _).
  assert (Hle : (fuel1 <= fuel)%nat)
    by exact (Nat.le_trans _ _ _ (Nat.le_add_r _ _) Hfuel).
  pose proof (line_fuel_mono fuel1 fuel x0 y0 x1 y1 e tr Hle Hrun) as Hrun2.
  rewrite Hrun' in Hrun2. injection Hrun2 as ->.
  exists tr. split; [exact Hrun'|]. split; [exact Hpix|]. split; [exact Hlen|].
  destruct (ends_in (pixels tr) _ _ rest Hhd Hlast) as [H1 H2].
  destruct (if Z.abs (y1 - y0) >? Z.abs (x1 - x0)
            then y0 <=? y1 else x0 <=? x1); now split.
Qed.

(** X5.  [triangle] draws the three sides one after the other: it issues
    pixel calls only, as many as the three sides have pixels (each vertex
    is drawn by two sides), and all three vertices are among them. *)
Theorem triangle_draws_vertices (x0 y0 x1 y1 x2 y2 : Z) (e : Extra) :
  exists fuel tr,
    triangle fuel x0 y0 x1 y1 x2 y2 e = Done tt tr
    /\ Forall is_pixel tr
    /\ Z.of_nat (length tr)
       = Z.max (Z.abs (x1 - x0)) (Z.abs (y1 - y0))
         + Z.max (Z.abs (x2 - x1)) (Z.abs (y2 - y1))
         + Z.max (Z.abs (x0 - x2)) (Z.abs (y0 - y2)) + 3
    /\ In (x0, y0) (pixels tr) /\ In (x1, y1) (pixels tr)
    /\ In (x2, y2) (pixels tr).
Proof.
  destruct (line_full x0 y0 x1 y1 e) as (f1 & H1).
  destruct (line_full x1 y1 x2 y2 e) as (f2 & H2).
  destruct (line_full x2 y2 x0 y0 e) as (f3 & H3).
  destruct (H1 (f1 + f2 + f3)%nat)
    as (t1 & R1 & P1 & L1 & A1 & B1).
  { rewrite <- Nat.add_assoc. apply Nat.le_add_r. }
  destruct (H2 (f1 + f2 + f3)%nat)
    as (t2 & R2 & P2 & L2 & A2 & B2).
  { apply Nat.le_trans with (2 := Nat.le_add_r _ _). apply Nat.le_add_l. }
  destruct (H3 (f1 + f2 + f3)%nat)
    as (t3 & R3 & P3 & L3 & A3 & B3).
  { apply Nat.le_add_l. }
  exists (f1 + f2 + f3)%nat, (t1 ++ t2 ++ t3).
  unfold triangle. rewrite R1, R2, R3.
  split; [reflexivity|].
  split; [apply Forall_app; split; [assumption|]; apply Forall_app; now split|].
  split; [rewrite !length_app, !Nat2Z.inj_add; lia|].
  rewrite !pixels_app, !in_app_iff. tauto.
Qed.


(** *** The midpoint loop stays on the circle *)

Lemma circle_inv_init (r : Z) :
  0 <= r -> circle_inv r (mk_circle_vars (1 - r) 1 (-2 * r) 0 r).
Proof.
  intros Hr. unfold circle_inv. cbn [c_f c_ddF_x c_ddF_y c_x c_y]. lia.
Qed.

Lemma circle_inv_step (r : Z) (s : circle_vars) :
  circle_inv r s -> c_x s < c_y s -> circle_inv r (midpoint_step s).
Proof.
  destruct s as [f ddx ddy x y]. unfold circle_inv, midpoint_step.
  cbn [c_f c_ddF_x c_ddF_y c_x c_y].
  intros (Hx & Hy & Hxy & Hdx & Hdy & Hf & Hlo & Hhi) Hlt.
  destruct (Z.geb_spec f 0) as [Hge|Hneg]; cbn [c_f c_ddF_x c_ddF_y c_x c_y].
  - destruct (Z.eq_dec x (y - 1)) as [->|Hne]; repeat split; lia.
  - repeat split; lia.
Qed.

Lemma octants_near (x0 y0 r x y : Z) :
  0 <= x <= r -> 0 <= y <= r ->
  - r <= x * x + y * y - r * r <= r ->
  Forall (near_circle x0 y0 r) (octants x0 y0 x y).
Proof.
  intros Hx Hy HD. unfold octants, near_circle.
  repeat constructor; cbn [fst snd]; try lia;
    match goal with
    | |- Z.abs ?t <= r =>
        replace t with (x * x + y * y - r * r) by ring; lia
    end.
Qed.

Lemma circle_loop_near x0 y0 r e :
  forall n fuel s,
    circle_inv r s -> c_y s - c_x s <= Z.of_nat n -> (n <= fuel)%nat ->
    exists s' tr,
      while_ fuel (fun s => c_x s <? c_y s) (circle_body x0 y0 e) s
      = Done s' tr
      /\ Forall (near_circle x0 y0 r) (pixels tr)
      /\ (length tr <= 8 * n)%nat.
Proof.
  induction n as [|n IH]; intros fuel s Hinv Hm Hfuel; rewrite while_unfold;
    destruct (Z.ltb_spec (c_x s) (c_y s)) as [Hlt|Hge].
  - lia.
  - exists s, []. repeat split; try constructor.
  - destruct fuel as [|fuel]; [lia|].
    destruct (circle_body_done x0 y0 e s) as (t1 & Hbody & _ & _ & Hoct).
    assert (Hlen1 : length t1 = 8%nat).
    { unfold circle_body in Hbody. injection Hbody as <-. reflexivity. }
    destruct (midpoint_step_xy s) as [Hx Hy].
    pose proof (circle_inv_step r s Hinv Hlt) as Hinv'.
    destruct (IH fuel (midpoint_step s) Hinv' ltac:(lia) ltac:(lia))
      as (s' & t2 & Hrun & Hnear & Hlen).
    exists s', (t1 ++ t2). rewrite Hbody.
    split; [apply bind_done_done, Hrun|].
    split; [|rewrite length_app; lia].
    rewrite pixels_app, Hoct. apply Forall_app. split; [|exact Hnear].
    destruct Hinv' as (Hx' & Hy' & _ & _ & _ & _ & Hlo & Hhi).
    apply octants_near; lia.
  - exists s, []. repeat split; try constructor. cbn. lia.
Qed.

(** X6.  For a radius [r >= 0] every pixel [circle] draws is within [r] of
    the centre on both axes, and the square of its distance from the
    centre differs from [r*r] by at most [r]; [circle] issues at most
    [8*r + 4] pixel calls. *)
Theorem circle_near_ideal (x0 y0 r : Z) (e : Extra) :
  0 <= r ->
  exists fuel tr,
    circle fuel x0 y0 r e = Done tt tr
    /\ Forall (near_circle x0 y0 r) (pixels tr)
    /\ Z.of_nat (length tr) <= 8 * r + 4.
Proof.
  intros Hr.
  destruct (circle_loop_near x0 y0 r e (Z.to_nat r) (Z.to_nat r)
              (mk_circle_vars (1 - r) 1 (-2 * r) 0 r)
              (circle_inv_init r Hr) ltac:(cbn; lia) (le_n _))
    as (s' & tr & Hrun & Hnear & Hlen).
  exists (Z.to_nat r). eexists. unfold circle. rewrite Hrun.
  split; [reflexivity|]. cbn [app]. rewrite app_nil_r.
  split.
  - change (Forall (near_circle x0 y0 r) (axis_points x0 y0 r ++ pixels tr)).
    apply Forall_app. split; [|exact Hnear].
    unfold axis_points, near_circle.
    repeat constructor; cbn [fst snd]; try lia;
      match goal with
      | |- Z.abs ?t <= r => replace t with 0 by ring; lia
      end.
  - cbn [length]. lia.
Qed.


(** *** Filled circles against their outline *)

Lemma fill_circle_body_done x0 y0 e s :
  fill_circle_body x0 y0 e s
  = Done (midpoint_step s)
      [Vline (x0 + c_x (midpoint_step s)) (y0 - c_y (midpoint_step s))
         (2 * c_y (midpoint_step s) + 1) e;
       Vline (x0 + c_y (midpoint_step s)) (y0 - c_x (midpoint_step s))
         (2 * c_x (midpoint_step s) + 1) e;
       Vline (x0 - c_x (midpoint_step s)) (y0 - c_y (midpoint_step s))
         (2 * c_y (midpoint_step s) + 1) e;
       Vline (x0 - c_y (midpoint_step s)) (y0 - c_x (midpoint_step s))
         (2 * c_x (midpoint_step s) + 1) e].
Proof. reflexivity. Qed.

Lemma span_on_outline_weaken y0 pts pts' c :
  (forall p, In p pts -> In p pts') ->
  span_on_outline y0 pts c -> span_on_outline y0 pts' c.
Proof.
  intros Hsub. destruct c; cbn; try contradiction.
  intros (H1 & H2 & H3). auto.
Qed.

Ltac find_cell :=
  cbn [In];
  repeat match goal with
         | |- _ \/ _ => first [left; solve [f_equal; lia] | right]
         end.

Lemma octant_spans_on_outline x0 y0 x y e :
  Forall (span_on_outline y0 (octants x0 y0 x y))
    [Vline (x0 + x) (y0 - y) (2 * y + 1) e;
     Vline (x0 + y) (y0 - x) (2 * x + 1) e;
     Vline (x0 - x) (y0 - y) (2 * y + 1) e;
     Vline (x0 - y) (y0 - x) (2 * x + 1) e].
Proof.
  unfold octants.
  constructor; [|constructor; [|constructor; [|constructor; [|constructor]]]];
    cbn [span_on_outline]; (split; [|split; [|lia]]); find_cell.
Qed.

(** The two midpoint loops side by side: they go through the same states,
    and every span of the filled loop ends on points of the outline
    loop. *)
Lemma circle_loops_agree x0 y0 e :
  forall n fuel s,
    c_y s - c_x s <= Z.of_nat n -> (n <= fuel)%nat ->
    exists s' tc tf,
      while_ fuel (fun s => c_x s <? c_y s) (circle_body x0 y0 e) s
      = Done s' tc
      /\ while_ fuel (fun s => c_x s <? c_y s) (fill_circle_body x0 y0 e) s
         = Done s' tf
      /\ Forall (span_on_outline y0 (pixels tc)) tf.
Proof.
  induction n as [|n IH]; intros fuel s Hm Hfuel; rewrite !while_unfold;
    destruct (Z.ltb_spec (c_x s) (c_y s)) as [Hlt|Hge].
  - lia.
  - exists s, [], []. repeat split; constructor.
  - destruct fuel as [|fuel]; [lia|].
    destruct (circle_body_done x0 y0 e s) as (t1 & Hbody & _ & _ & Hoct).
    destruct (midpoint_step_xy s) as [Hx Hy].
    destruct (IH fuel (midpoint_step s) ltac:(lia) ltac:(lia))
      as (s' & tc & tf & Hrunc & Hrunf & Hends).
    eexists s', (t1 ++ tc), _.
    rewrite Hbody, fill_circle_body_done.
    split; [apply bind_done_done, Hrunc|].
    split; [apply bind_done_done, Hrunf|].
    apply Forall_app. split.
    + eapply Forall_impl; [|apply octant_spans_on_outline].
      intros c. apply span_on_outline_weaken.
      intros p Hp. rewrite pixels_app, Hoct. apply in_or_app. now left.
    + eapply Forall_impl; [|exact Hends].
      intros c. apply span_on_outline_weaken.
      intros p Hp. rewrite pixels_app. apply in_or_app. now right.
  - exists s, [], []. repeat split; constructor.
Qed.

(** X7.  Every call [fill_circle] issues is a vertical span centred on the
    row of the centre, and its first and last cell are pixels that
    [circle] draws for the same centre and radius. *)
Theorem fill_circle_spans_on_outline (x0 y0 r : Z) (e : Extra) :
  exists fuel outline tr,
    circle fuel x0 y0 r e = Done tt outline
    /\ fill_circle fuel x0 y0 r e = Done tt tr
    /\ Forall (span_on_outline y0 (pixels outline)) tr.
Proof.
  destruct (circle_loops_agree x0 y0 e (Z.to_nat r) (Z.to_nat r)
              (mk_circle_vars (1 - r) 1 (-2 * r) 0 r)
              ltac:(cbn; lia) (le_n _))
    as (s' & tc & tf & Hrunc & Hrunf & Hends).
  exists (Z.to_nat r). eexists. eexists.
  unfold circle, fill_circle. cbv zeta. rewrite Hrunc, Hrunf.
  split; [reflexivity|]. split; [reflexivity|].
  cbn [app]. rewrite !app_nil_r. constructor.
  - cbn [span_on_outline pixels flat_map app].
    split; [right; left; reflexivity|]. split; [|lia]. left. f_equal. lia.
  - eapply Forall_impl; [|exact Hends].
    intros c. apply span_on_outline_weaken.
    intros p Hp. cbn [pixels flat_map app]. do 4 right. exact Hp.
Qed.

Lemma in_vspan_cells (x y h : Z) (e : Extra) (p : Z * Z) :
  In p (call_cells (Vline x y h e)) <-> fst p = x /\ y <= snd p < y + h.
Proof.
  cbn [call_cells]. rewrite in_map_iff. split.
  - intros (j & <- & Hj). apply in_range in Hj. cbn. lia.
  - intros [Hx Hy]. exists (snd p - y). split.
    + destruct p as [a b]. cbn in *. f_equal; lia.
    + apply in_range. lia.
Qed.

Lemma in_hspan_cells (x y w : Z) (e : Extra) (p : Z * Z) :
  In p (call_cells (Hline x y w e)) <-> snd p = y /\ x <= fst p < x + w.
Proof.
  cbn [call_cells]. rewrite in_map_iff. split.
  - intros (i & <- & Hi). apply in_range in Hi. cbn. lia.
  - intros [Hy Hx]. exists (fst p - x). split.
    + destruct p as [a b]. cbn in *. f_equal; lia.
    + apply in_range. lia.
Qed.

Lemma vspan_in_disc (x0 y0 r a b cx : Z) (e : Extra) :
  0 <= b -> a * a + b * b <= r * r + r ->
  cx - x0 = a \/ cx - x0 = - a ->
  Forall (in_disc x0 y0 r) (call_cells (Vline cx (y0 - b) (2 * b + 1) e)).
Proof.
  intros Hb HD Hcx. apply Forall_forall. intros [px py] Hp.
  apply in_vspan_cells in Hp. cbn [fst snd] in Hp. destruct Hp as [-> Hpy].
  unfold in_disc. cbn [fst snd].
  assert ((py - y0) * (py - y0) <= b * b) by nia.
  assert ((cx - x0) * (cx - x0) = a * a) by (destruct Hcx as [->| ->]; ring).
  lia.
Qed.

Lemma fill_circle_loop_disc x0 y0 r e :
  forall n fuel s,
    circle_inv r s -> c_y s - c_x s <= Z.of_nat n -> (n <= fuel)%nat ->
    exists s' tr,
      while_ fuel (fun s => c_x s <? c_y s) (fill_circle_body x0 y0 e) s
      = Done s' tr
      /\ Forall (in_disc x0 y0 r) (flat_map call_cells tr)
      /\ (length tr <= 4 * n)%nat.
Proof.
  induction n as [|n IH]; intros fuel s Hinv Hm Hfuel; rewrite while_unfold;
    destruct (Z.ltb_spec (c_x s) (c_y s)) as [Hlt|Hge].
  - lia.
  - exists s, []. repeat split; try constructor.
  - destruct fuel as [|fuel]; [lia|].
    destruct (midpoint_step_xy s) as [Hx Hy].
    pose proof (circle_inv_step r s Hinv Hlt) as Hinv'.
    destruct (IH fuel (midpoint_step s) Hinv' ltac:(lia) ltac:(lia))
      as (s' & t2 & Hrun & Hdisc & Hlen).
    eexists s', _. rewrite fill_circle_body_done.
    split; [apply bind_done_done, Hrun|].
    split; [|rewrite length_app; cbn [length]; lia].
    destruct Hinv' as (Hx' & Hy' & _ & _ & _ & _ & Hlo & Hhi).
    set (x := c_x (midpoint_step s)) in *.
    set (y := c_y (midpoint_step s)) in *.
    assert (HD : x * x + y * y <= r * r + r) by lia.
    rewrite flat_map_app. apply Forall_app. split; [|exact Hdisc].
    cbn [flat_map]. rewrite app_nil_r.
    repeat (apply Forall_app; split).
    + apply (vspan_in_disc x0 y0 r x y); lia.
    + apply (vspan_in_disc x0 y0 r y x); lia.
    + apply (vspan_in_disc x0 y0 r x y); lia.
    + apply (vspan_in_disc x0 y0 r y x); lia.
  - exists s, []. repeat split; try constructor. cbn. lia.
Qed.

(** X8.  For a radius [r >= 0], [fill_circle] issues at most [4*r + 1]
    span calls, and no cell of any of its spans lies outside the disc: the
    square of its distance from the centre is at most [r*r + r]. *)
Theorem fill_circle_inside_disc (x0 y0 r : Z) (e : Extra) :
  0 <= r ->
  exists fuel tr,
    fill_circle fuel x0 y0 r e = Done tt tr
    /\ Forall (in_disc x0 y0 r) (flat_map call_cells tr)
    /\ Z.of_nat (length tr) <= 4 * r + 1.
Proof.
  intros Hr.
  destruct (fill_circle_loop_disc x0 y0 r e (Z.to_nat r) (Z.to_nat r)
              (mk_circle_vars (1 - r) 1 (-2 * r) 0 r)
              (circle_inv_init r Hr) ltac:(cbn; lia) (le_n _))
    as (s' & tr & Hrun & Hdisc & Hlen).
  exists (Z.to_nat r). eexists. unfold fill_circle. cbv zeta. rewrite Hrun.
  split; [reflexivity|]. cbn [app]. rewrite app_nil_r.
  split; [|cbn [length]; lia].
  cbn [flat_map]. apply Forall_app. split; [|exact Hdisc].
  apply (vspan_in_disc x0 y0 r 0 r); lia.
Qed.


(** *** Rectangles, and spans through the fallbacks *)

(** X9.  A rejected [rect] issues no call.  Otherwise, for a width and a
    height of at least one, it issues four span calls, and the cells they
    ask for are exactly the cells on the border of the rectangle with
    corners [(x0, y0)] and [(x0+width-1, y0+height-1)]. *)
Theorem rect_outline (self : GFX) (x0 y0 width height : Z) (e : Extra) :
  (rect_rejected self x0 y0 width height ->
   rect self x0 y0 width height e = Done tt [])
  /\ (~ rect_rejected self x0 y0 width height -> 1 <= width -> 1 <= height ->
      exists tr,
        rect self x0 y0 width height e = Done tt tr
        /\ length tr = 4%nat
        /\ forall p,
            In p (flat_map call_cells tr)
            <-> (x0 <= fst p < x0 + width /\ y0 <= snd p < y0 + height)
                /\ (fst p = x0 \/ fst p = x0 + width - 1
                    \/ snd p = y0 \/ snd p = y0 + height - 1)).
Proof.
  split.
  - intros H. apply guard_spec in H. unfold rect. now rewrite H.
  - intros H Hw Hh. apply guard_spec' in H. unfold rect. rewrite H.
    eexists. split; [reflexivity|]. split; [reflexivity|].
    intros p. cbn [app flat_map].
    rewrite !in_app_iff, !in_hspan_cells, !in_vspan_cells. cbn [In]. lia.
Qed.

Lemma pixel_calls_shape (self : GFX) (m : M unit) :
  Forall (is_pixel_invoke self) (pixel_calls self m).
Proof.
  assert (H : forall tr,
    Forall (is_pixel_invoke self)
      (flat_map (fun c => match c with
                          | Pixel x y e => [Invoke (self_pixel self) [x; y] e]
                          | _ => []
                          end) tr)).
  { induction tr as [|c tr IH]; cbn; [constructor|].
    apply Forall_app. split; [|exact IH].
    destruct c; repeat constructor. unfold is_pixel_invoke. eauto. }
  destruct m; cbn; auto.
Qed.


Lemma pixel_calls_column (self : GFX) (x y : Z) (e : Extra) (js : list Z) :
  pixel_calls self (Done tt (map (fun j => Pixel x (y + j) e) js))
  = map (fun j => Invoke (self_pixel self) [x; y + j] e) js.
Proof.
  cbn. induction js as [|j js IH]; cbn; [reflexivity|]. now rewrite IH.
Qed.

(** X11.  Through the fallback vertical span, [_fill_rect] on a rectangle
    that starts on the canvas and does not pass its right edge ([0 <= x0],
    [x0+width-1 <= self.width], [0 <= y0 <= self.height], [0 <= height])
    reaches the driver with one pixel call per cell of the rectangle,
    column by column from the left, each column from the top. *)
Theorem fill_rect_through_fallback (self : GFX) (x0 y0 width height : Z)
  (e : Extra) :
  self_vline self = Fallback ->
  0 <= x0 -> x0 + width - 1 <= self_width self ->
  0 <= y0 <= self_height self -> 0 <= height ->
  exists tr,
    _fill_rect self x0 y0 width height e = Done tt tr
    /\ backend_trace self tr
       = flat_map (fun i =>
                     map (fun j => Invoke (self_pixel self) [i; y0 + j] e)
                       (range 0 height))
           (range x0 (x0 + width)).
Proof.
  intros Hv Hx0 Hx1 Hy Hh.
  destruct ((y0 <? - height) || (y0 >? self_height self) || (x0 <? - width)
            || (x0 >? self_width self)) eqn:G.
  - apply guard_spec in G.
    exists []. split; [now apply fill_rect_rejected|].
    unfold rect_rejected in G.
    rewrite (range_nil x0 (x0 + width)) by lia. reflexivity.
  - apply guard_spec' in G.
    eexists. split; [now apply fill_rect_accepted|].
    assert (Hcols : Forall (fun i => 0 <= i <= self_width self)
                      (range x0 (x0 + width))).
    { apply Forall_forall. intros i Hi. apply in_range in Hi. lia. }
    induction Hcols as [|i cols Hi _ IH]; [reflexivity|].
    cbn [map flat_map backend_trace]. unfold backend_trace in IH. rewrite IH.
    f_equal. cbn [dispatch]. rewrite Hv.
    rewrite slow_vline_accepted by (unfold vspan_rejected; lia).
    apply pixel_calls_column.
Qed.

(** *** Filled triangles *)

(** X12.  For three vertices on one row, in any order, [fill_triangle]
    issues a single horizontal span on that row, from the smallest to the
    largest of the three [x], on any fuel. *)
Theorem fill_triangle_flat (fuel : nat) (x0 x1 x2 y : Z) (e : Extra) :
  fill_triangle fuel x0 y x1 y x2 y e
  = Done tt [Hline (Z.min x0 (Z.min x1 x2)) y
               (Z.max x0 (Z.max x1 x2) - Z.min x0 (Z.min x1 x2) + 1) e].
Proof.
  assert (Hyy : (y >? y) = false)
    by (destruct (Z.gtb_spec y y); [lia | reflexivity]).
  unfold fill_triangle.
  repeat (rewrite Hyy; cbv beta iota zeta).
  unfold fill_triangle_scan. cbv zeta. rewrite Z.eqb_refl.
  destruct (Z.ltb_spec x1 x0), (Z.gtb_spec x1 x0); cbv beta iota zeta;
    try lia;
    match goal with
    | |- context [?u <? ?v] => destruct (Z.ltb_spec u v)
    end;
    try match goal with
        | |- context [?u >? ?v] => destruct (Z.gtb_spec u v)
        end;
    cbv beta iota zeta; unfold hline, emit; do 2 f_equal; f_equal; lia.
Qed.


Lemma for_each_forall {S} (P : call -> Prop) (body : Z -> S -> M S) :
  (forall v s s1 t, body v s = Done s1 t -> Forall P t) ->
  forall xs s s' tr, for_each xs body s = Done s' tr -> Forall P tr.
Proof.
  intros Hbody. induction xs as [|v xs IH]; intros s s' tr H; cbn in H.
  - injection H as _ <-. constructor.
  - apply bind_done_inv in H as (s1 & t1 & t2 & H1 & H2 & ->).
    apply Forall_app. split; [exact (Hbody _ _ _ _ H1) | exact (IH _ _ _ H2)].
Qed.

Lemma while_forall {S} (P : call -> Prop) (cond : S -> bool)
  (body : S -> M S) :
  (forall s s1 t, body s = Done s1 t -> Forall P t) ->
  forall fuel s s' tr, while_ fuel cond body s = Done s' tr -> Forall P tr.
Proof.
  intros Hbody. induction fuel as [|fuel IH]; intros s s' tr H;
    rewrite while_unfold in H; destruct (cond s); try discriminate;
    try (injection H as _ <-; constructor).
  apply bind_done_inv in H as (s1 & t1 & t2 & H1 & H2 & ->).
  apply Forall_app. split; [exact (Hbody _ _ _ H1) | exact (IH _ _ _ H2)].
Qed.

Lemma scanline_proper xa x0 dxa dya dx02 dy02 y e s r t :
  scanline xa x0 dxa dya dx02 dy02 y e s = Done r t -> Forall proper_hspan t.
Proof.
  unfold scanline, floordiv.
  destruct (dya =? 0); [discriminate|].
  destruct (dy02 =? 0); [discriminate|]. cbn [bind ret].
  destruct (Z.gtb_spec (xa + t_sa s / dya) (x0 + t_sb s / dy02));
    cbn; intros [= _ <-]; repeat constructor; cbn; lia.
Qed.

Lemma fill_triangle_scan_proper fuel (a0 b0 a1 b1 a2 b2 : Z) (e : Extra) tr :
  fill_triangle_scan fuel a0 b0 a1 b1 a2 b2 e = Done tt tr ->
  Forall proper_hspan tr.
Proof.
  unfold fill_triangle_scan. cbv zeta.
  destruct (b0 =? b2).
  - destruct (Z.ltb_spec a1 a0), (Z.gtb_spec a1 a0); cbv beta iota zeta;
      match goal with
      | |- context [?u <? ?v] => destruct (Z.ltb_spec u v)
      end;
      try match goal with
          | |- context [?u >? ?v] => destruct (Z.gtb_spec u v)
          end;
      cbv beta iota zeta; unfold hline, emit; intros H'; injection H' as <-;
      (constructor; [cbn; lia | constructor]).
  - intros H. apply bind_done_inv in H as (s1 & t1 & t2 & H1 & H2 & ->).
    apply bind_done_inv in H2 as (s2 & t3 & t4 & H2 & H3 & ->).
    injection H3 as <-.
    apply Forall_app. split; [|apply Forall_app; split; [|constructor]].
    + eapply for_each_forall; [|exact H1].
      intros v s s' t Hb.
      apply bind_done_inv in Hb as ([[[a b] sa] sb] & u1 & u2 & Hsc & Hr & ->).
      injection Hr as _ <-. rewrite app_nil_r.
      eapply scanline_proper; exact Hsc.
    + eapply while_forall; [|exact H2].
      intros s s' t Hb.
      apply bind_done_inv in Hb as ([[[a b] sa] sb] & u1 & u2 & Hsc & Hr & ->).
      injection Hr as _ <-. rewrite app_nil_r.
      eapply scanline_proper; exact Hsc.
Qed.

Lemma no_rows_no_spans (tr : list call) :
  Forall proper_hspan tr -> hline_rows tr = [] -> tr = [].
Proof.
  intros H. destruct H as [|c tr Hc _]; [reflexivity|].
  destruct c; cbn in Hc; try contradiction. discriminate.
Qed.

(** X13.  [fill_triangle] issues horizontal spans only, and every span it
    issues has a length of at least one: the two ends of a scanline are
    put in ascending order before the span is drawn. *)
Theorem fill_triangle_proper_spans (x0 y0 x1 y1 x2 y2 : Z) (e : Extra) :
  exists fuel tr,
    fill_triangle fuel x0 y0 x1 y1 x2 y2 e = Done tt tr
    /\ Forall proper_hspan tr.
Proof.
  destruct (fill_triangle_sorts x0 y0 x1 y1 x2 y2 e)
    as (a0 & b0 & a1 & b1 & a2 & b2 & Hs & Heq).
  destruct (fill_triangle_scan_run a0 b0 a1 b1 a2 b2 e Hs)
    as (fuel & tr & Hrun & _).
  exists fuel, tr. rewrite Heq. split; [exact Hrun|].
  exact (fill_triangle_scan_proper fuel a0 b0 a1 b1 a2 b2 e tr Hrun).
Qed.

(** X15.  For a flat-top triangle ([y0 = y1 < y2], vertices in ascending
    [y]) the first loop of [fill_triangle] has nothing to do and leaves [y]
    at [0], so the spans are drawn on the rows from [0] through [y2],
    wherever the top of the triangle is: no span at all when [y2 < 0]. *)
Theorem fill_triangle_flat_top_from_row_zero (x0 x1 x2 y0 y2 : Z) (e : Extra) :
  y0 < y2 ->
  exists fuel tr,
    fill_triangle fuel x0 y0 x1 y0 x2 y2 e = Done tt tr
    /\ hline_rows tr = range 0 (y2 + 1)
    /\ (y2 < 0 -> tr = []).
Proof.
  intros Hlt.
  destruct (fill_triangle_rows x0 y0 x1 y0 x2 y2 e ltac:(lia) ltac:(lia))
    as (fuel & tr & Hrun & Hrows).
  exists fuel, tr. split; [exact Hrun|].
  destruct (Z.eqb_spec y0 y2) as [Heq|_]; [lia|].
  destruct (Z.leb_spec y0 (y0 - 1)) as [Hle|_]; [lia|].
  rewrite (range_nil y0 (y0 - 1 + 1)) in Hrows by lia. cbn [app] in Hrows.
  split; [exact Hrows|]. intros Hneg.
  rewrite range_nil in Hrows by lia.
  apply no_rows_no_spans; [|exact Hrows].
  rewrite fill_triangle_of_sorted in Hrun by lia.
  exact (fill_triangle_scan_proper fuel x0 y0 x1 y0 x2 y2 e tr Hrun).
Qed.


Lemma octants_covered x0 y0 x y e p :
  0 <= x -> 0 <= y -> In p (octants x0 y0 x y) ->
  In p (flat_map call_cells
          [Vline (x0 + x) (y0 - y) (2 * y + 1) e;
           Vline (x0 + y) (y0 - x) (2 * x + 1) e;
           Vline (x0 - x) (y0 - y) (2 * y + 1) e;
           Vline (x0 - y) (y0 - x) (2 * x + 1) e]).
Proof.
  intros Hx Hy Hin. cbn [flat_map]. rewrite app_nil_r.
  rewrite !in_app_iff, !in_vspan_cells.
  unfold octants in Hin. cbn [In] in Hin.
  repeat match type of Hin with
         | _ \/ _ => destruct Hin as [Hin|Hin]
         end; try contradiction; subst p; cbn [fst snd]; lia.
Qed.

(** The two midpoint loops side by side, for [r >= 0]: the spans of the
    filled loop cover the points of the outline loop, and an iteration
    that runs puts its four spans first. *)
Lemma circle_loops_cover x0 y0 r e :
  forall n fuel s,
    circle_inv r s -> c_y s - c_x s <= Z.of_nat n -> (n <= fuel)%nat ->
    exists s' tc tf,
      while_ fuel (fun s => c_x s <? c_y s) (circle_body x0 y0 e) s
      = Done s' tc
      /\ while_ fuel (fun s => c_x s <? c_y s) (fill_circle_body x0 y0 e) s
         = Done s' tf
      /\ Forall (fun p => In p (flat_map call_cells tf)) (pixels tc)
      /\ (c_x s < c_y s ->
          forall p,
            In p (flat_map call_cells
                    [Vline (x0 + c_x (midpoint_step s))
                       (y0 - c_y (midpoint_step s))
                       (2 * c_y (midpoint_step s) + 1) e;
                     Vline (x0 + c_y (midpoint_step s))
                       (y0 - c_x (midpoint_step s))
                       (2 * c_x (midpoint_step s) + 1) e;
                     Vline (x0 - c_x (midpoint_step s))
                       (y0 - c_y (midpoint_step s))
                       (2 * c_y (midpoint_step s) + 1) e;
                     Vline (x0 - c_y (midpoint_step s))
                       (y0 - c_x (midpoint_step s))
                       (2 * c_x (midpoint_step s) + 1) e]) ->
            In p (flat_map call_cells tf)).
Proof.
  induction n as [|n IH]; intros fuel s Hinv Hm Hfuel; rewrite !while_unfold;
    destruct (Z.ltb_spec (c_x s) (c_y s)) as [Hlt|Hge].
  - lia.
  - exists s, [], []. repeat split; try constructor. lia.
  - destruct fuel as [|fuel]; [lia|].
    destruct (circle_body_done x0 y0 e s) as (t1 & Hbody & _ & _ & Hoct).
    destruct (midpoint_step_xy s) as [Hx Hy].
    pose proof (circle_inv_step r s Hinv Hlt) as Hinv'.
    destruct (IH fuel (midpoint_step s) Hinv' ltac:(lia) ltac:(lia))
      as (s' & tc & tf & Hrunc & Hrunf & Hcov & _).
    eexists s', (t1 ++ tc), _.
    rewrite Hbody, fill_circle_body_done.
    split; [apply bind_done_done, Hrunc|].
    split; [apply bind_done_done, Hrunf|].
    destruct Hinv' as (Hx' & Hy' & _).
    split.
    + rewrite pixels_app, Hoct. apply Forall_app. split.
      * apply Forall_forall. intros p Hp.
        rewrite flat_map_app. apply in_or_app. left.
        apply octants_covered; [lia | lia | exact Hp].
      * eapply Forall_impl; [|exact Hcov]. intros p Hp.
        rewrite flat_map_app. apply in_or_app. now right.
    + intros _ p Hp. rewrite flat_map_app. apply in_or_app. now left.
  - exists s, [], []. repeat split; try constructor. lia.
Qed.

(** X16.  For a radius [r >= 0] the spans of [fill_circle] cover the
    outline: every pixel [circle] draws for the same centre and radius is
    a cell of one of the spans. *)
Theorem fill_circle_covers_outline (x0 y0 r : Z) (e : Extra) :
  0 <= r ->
  exists fuel outline tr,
    circle fuel x0 y0 r e = Done tt outline
    /\ fill_circle fuel x0 y0 r e = Done tt tr
    /\ Forall (fun p => In p (flat_map call_cells tr)) (pixels outline).
Proof.
  intros Hr.
  destruct (circle_loops_cover x0 y0 r e (Z.to_nat r) (Z.to_nat r)
              (mk_circle_vars (1 - r) 1 (-2 * r) 0 r)
              (circle_inv_init r Hr) ltac:(cbn; lia) (le_n _))
    as (s' & tc & tf & Hrunc & Hrunf & Hcov & Hfirst).
  exists (Z.to_nat r). eexists. eexists.
  unfold circle, fill_circle. cbv zeta. rewrite Hrunc, Hrunf.
  split; [reflexivity|]. split; [reflexivity|].
  cbn [app]. rewrite !app_nil_r.
  change (Forall
            (fun p => In p (call_cells (Vline x0 (y0 - r) (2 * r + 1) e)
                            ++ flat_map call_cells tf))
            (axis_points x0 y0 r ++ pixels tc)).
  apply Forall_app. split.
  - assert (Hside : forall cx, cx = x0 + r \/ cx = x0 - r ->
              In (cx, y0)
                (call_cells (Vline x0 (y0 - r) (2 * r + 1) e)
                 ++ flat_map call_cells tf)).
    { intros cx Hcx. apply in_or_app.
      destruct (Z.eq_dec r 0) as [->|Hnz].
      - left. apply in_vspan_cells. cbn [fst snd]. lia.
      - right. apply Hfirst; [cbn [c_x c_y]; lia|].
        cbn [flat_map]. rewrite app_nil_r.
        rewrite !in_app_iff, !in_vspan_cells.
        unfold midpoint_step. cbn [c_f c_ddF_x c_ddF_y c_x c_y].
        destruct (Z.geb_spec (1 - r) 0); cbn [c_x c_y fst snd]; lia. }
    unfold axis_points.
    repeat (apply Forall_cons); try apply Forall_nil.
    + apply in_or_app. left. apply in_vspan_cells. cbn [fst snd]. lia.
    + apply in_or_app. left. apply in_vspan_cells. cbn [fst snd]. lia.
    + apply Hside. now left.
    + apply Hside. now right.
  - eapply Forall_impl; [|exact Hcov]. intros p Hp.
    apply in_or_app. now right.
Qed.


End GFX.

Arguments Pixel {Extra} x y e.
Arguments Hline {Extra} x y w e.
Arguments Vline {Extra} x y h e.
Arguments mkGFX {Callable}.
Arguments Supplied {Callable} c.
Arguments Fallback {Callable}.
Arguments _slow_hline {Extra Callable} self x0 y0 width e.
Arguments _slow_vline {Extra Callable} self x0 y0 height e.
Arguments _fill_rect {Extra Callable} self x0 y0 width height e.
Arguments circle {Extra} fuel x0 y0 radius e.
Arguments hspan_rejected {Callable} self x y length.
Arguments vspan_rejected {Callable} self x y length.
Arguments rect_rejected {Callable} self x0 y0 width height.

(** ** The statements on an 8 x 8 canvas

    The context below has no span callables, so both spans are the
    fallbacks; the extra argument is a colour number. *)

(** C3 without the restriction to [length >= 1]: a span of length [0] at
    the origin passes the rejection test and yet issues no call, so "no-op
    exactly when the test holds" fails there. *)
Lemma slow_hline_zero_length_noop :
  ~ (_slow_hline (mkGFX 8 8 "pixel"%string Fallback Fallback "rect"%string)
       0 0 0 1 = Done tt []
     <-> hspan_rejected
           (mkGFX 8 8 "pixel"%string Fallback Fallback "rect"%string) 0 0 0).
Proof.
  intros [H _]. specialize (H eq_refl).
  unfold hspan_rejected in H. cbn in H. lia.
Qed.

Lemma slow_span_fallbacks_witness :
  let self := mkGFX 8 8 "pixel"%string Fallback Fallback "rect"%string in
  (hspan_rejected self 9 3 3 /\ _slow_hline self 9 3 3 1 = Done tt [])
  /\ (~ hspan_rejected self 2 3 3
      /\ _slow_hline self 2 3 3 1
         = Done tt [Pixel 2 3 1; Pixel 3 3 1; Pixel 4 3 1])
  /\ (1 <= 3
      /\ (_slow_hline self 2 3 3 1 = Done tt [] <-> hspan_rejected self 2 3 3))
  /\ (vspan_rejected self 2 (-4) 3 /\ _slow_vline self 2 (-4) 3 1 = Done tt [])
  /\ (~ vspan_rejected self 2 8 2
      /\ _slow_vline self 2 8 2 1 = Done tt [Pixel 2 8 1; Pixel 2 9 1])
  /\ (1 <= 2
      /\ (_slow_vline self 2 8 2 1 = Done tt [] <-> vspan_rejected self 2 8 2)).
Proof.
  intros self.
  assert (R1 : hspan_rejected self 9 3 3)
    by (unfold hspan_rejected; cbn; lia).
  assert (N1 : ~ hspan_rejected self 2 3 3)
    by (unfold hspan_rejected; cbn; lia).
  assert (R2 : vspan_rejected self 2 (-4) 3)
    by (unfold vspan_rejected; cbn; lia).
  assert (N2 : ~ vspan_rejected self 2 8 2)
    by (unfold vspan_rejected; cbn; lia).
  split; [split; [exact R1|]|].
  { exact (proj1 (proj1 (slow_span_fallbacks Z string self 9 3 3 1)) R1). }
  split; [split; [exact N1|]|].
  { exact (proj1 (proj2 (proj1 (slow_span_fallbacks Z string self 2 3 3 1))) N1). }
  split; [split; [lia|]|].
  { exact (proj2 (proj2 (proj1 (slow_span_fallbacks Z string self 2 3 3 1)))
             ltac:(lia)). }
  split; [split; [exact R2|]|].
  { exact (proj1 (proj2 (slow_span_fallbacks Z string self 2 (-4) 3 1)) R2). }
  split; [split; [exact N2|]|].
  { exact (proj1 (proj2 (proj2 (slow_span_fallbacks Z string self 2 8 2 1))) N2). }
  split; [lia|].
  exact (proj2 (proj2 (proj2 (slow_span_fallbacks Z string self 2 8 2 1)))
           ltac:(lia)).
Defined.

Lemma fill_rect_columns_witness :
  let self := mkGFX 8 8 "pixel"%string Fallback Fallback "rect"%string in
  (rect_rejected self 9 1 3 2 /\ _fill_rect self 9 1 3 2 1 = Done tt [])
  /\ (~ rect_rejected self 2 1 3 2
      /\ _fill_rect self 2 1 3 2 1
         = Done tt [Vline 2 1 2 1; Vline 3 1 2 1; Vline 4 1 2 1]).
Proof.
  intros self.
  assert (R : rect_rejected self 9 1 3 2) by (unfold rect_rejected; cbn; lia).
  assert (N : ~ rect_rejected self 2 1 3 2)
    by (unfold rect_rejected; cbn; lia).
  split; [split; [exact R|]|split; [exact N|]].
  - exact (proj1 (proj1 (fill_rect_columns Z string self 9 1 3 2 1) R)).
  - destruct (proj2 (fill_rect_columns Z string self 2 1 3 2 1) N)
      as (tr & Hrun & Htr & _).
    rewrite Hrun, Htr. reflexivity.
Defined.

Lemma circle_negative_radius_witness :
  -2 < 0
  /\ circle 0 5 5 (-2) 1
     = Done tt [Pixel 5 3 1; Pixel 5 7 1; Pixel 3 5 1; Pixel 7 5 1].
Proof.
  split; [lia|].
  exact (proj2 (circle_negative_radius Z 0 5 5 (-2) 1 ltac:(lia))).
Defined.

Arguments pixels {Extra} tr.
Arguments hline_rows {Extra} tr.
Arguments call_cells {Extra} c.
Arguments rect {Extra Callable} self x0 y0 width height e.
Arguments fill_circle {Extra} fuel x0 y0 radius e.
Arguments fill_triangle {Extra} fuel x0 y0 x1 y1 x2 y2 e.
Arguments backend_trace {Extra Callable} self tr.
Arguments is_pixel_invoke {Extra Callable} self b.
Arguments Invoke {Extra Callable} c args e.
Arguments self_pixel {Callable} g.
Arguments self_hline {Callable} g.
Arguments self_vline {Callable} g.
Arguments self_width {Callable} g.
Arguments self_height {Callable} g.

Lemma circle_near_ideal_witness :
  0 <= 3
  /\ exists fuel tr,
      circle fuel 5 5 3 1 = Done tt tr
      /\ Forall (near_circle 5 5 3) (pixels tr)
      /\ Z.of_nat (length tr) <= 8 * 3 + 4.
Proof.
  split; [lia|]. exact (circle_near_ideal Z 5 5 3 1 ltac:(lia)).
Defined.

Lemma fill_circle_inside_disc_witness :
  0 <= 3
  /\ exists fuel tr,
      fill_circle fuel 5 5 3 1 = Done tt tr
      /\ Forall (in_disc 5 5 3) (flat_map call_cells tr)
      /\ Z.of_nat (length tr) <= 4 * 3 + 1.
Proof.
  split; [lia|]. exact (fill_circle_inside_disc Z 5 5 3 1 ltac:(lia)).
Defined.

Lemma rect_outline_witness :
  let self := mkGFX 8 8 "pixel"%string Fallback Fallback "rect"%string in
  (rect_rejected self 9 1 3 2 /\ rect self 9 1 3 2 1 = Done tt [])
  /\ (~ rect_rejected self 2 1 3 2 /\ 1 <= 3 /\ 1 <= 2
      /\ exists tr,
          rect self 2 1 3 2 1 = Done tt tr
          /\ length tr = 4%nat
          /\ forall p,
              In p (flat_map call_cells tr)
              <-> (2 <= fst p < 2 + 3 /\ 1 <= snd p < 1 + 2)
                  /\ (fst p = 2 \/ fst p = 2 + 3 - 1
                      \/ snd p = 1 \/ snd p = 1 + 2 - 1)).
Proof.
  intros self.
  assert (R : rect_rejected self 9 1 3 2) by (unfold rect_rejected; cbn; lia).
  assert (N : ~ rect_rejected self 2 1 3 2)
    by (unfold rect_rejected; cbn; lia).
  split; [split; [exact R|]|split; [exact N|split; [lia|split; [lia|]]]].
  - exact (proj1 (rect_outline Z string self 9 1 3 2 1) R).
  - exact (proj2 (rect_outline Z string self 2 1 3 2 1) N
             ltac:(lia) ltac:(lia)).
Defined.


Lemma fill_rect_through_fallback_witness :
  let self := mkGFX 8 8 "pixel"%string Fallback Fallback "rect"%string in
  self_vline self = Fallback
  /\ 0 <= 2 /\ 2 + 3 - 1 <= self_width self
  /\ 0 <= 1 <= self_height self /\ 0 <= 2
  /\ exists tr,
      _fill_rect self 2 1 3 2 1 = Done tt tr
      /\ backend_trace self tr
         = flat_map (fun i =>
                       map (fun j => Invoke (self_pixel self) [i; 1 + j] 1)
                         (range 0 2))
             (range 2 (2 + 3)).
Proof.
  intros self.
  assert (H1 : 2 + 3 - 1 <= self_width self) by (cbn; lia).
  assert (H2 : 0 <= 1 <= self_height self) by (cbn; lia).
  split; [reflexivity|]. split; [lia|]. split; [exact H1|].
  split; [exact H2|]. split; [lia|].
  exact (fill_rect_through_fallback Z string self 2 1 3 2 1 eq_refl
           ltac:(lia) H1 H2 ltac:(lia)).
Defined.

Lemma fill_triangle_row_twice_witness :
  0 <= 2 <= 4 /\ 0 <> 4 /\ 0 <= 1
  /\ exists fuel tr,
      fill_triangle fuel 0 0 4 2 0 4 1 = Done tt tr
      /\ count_occ Z.eq_dec (hline_rows tr) 1 = 2%nat.
Proof.
  split; [lia|]. split; [lia|]. split; [lia|].
  exact (fill_triangle_row_twice Z 0 0 4 2 0 4 1 ltac:(lia) ltac:(lia)
           ltac:(cbn; lia)).
Defined.

Lemma fill_triangle_flat_top_from_row_zero_witness :
  2 < 4
  /\ exists fuel tr,
      fill_triangle fuel 0 2 4 2 2 4 1 = Done tt tr
      /\ hline_rows tr = range 0 (4 + 1)
      /\ (4 < 0 -> tr = []).
Proof.
  split; [lia|].
  exact (fill_triangle_flat_top_from_row_zero Z 0 4 2 2 4 1 ltac:(lia)).
Defined.

Lemma fill_circle_covers_outline_witness :
  0 <= 3
  /\ exists fuel outline tr,
      circle fuel 5 5 3 1 = Done tt outline
      /\ fill_circle fuel 5 5 3 1 = Done tt tr
      /\ Forall (fun p => In p (flat_map call_cells tr)) (pixels outline).
Proof.
  split; [lia|]. exact (fill_circle_covers_outline Z 5 5 3 1 ltac:(lia)).
Defined.
